(** * Verification of the YAGO resolution engine (tools/yago.py)

    A shallow embedding of [YagoDict]: the relational tables, the two
    LevelDB stores with their write batches, the taxonomy queries and the
    two compound resolution strategies, followed by the properties proved
    about them. *)

From stdpp Require Import gmap strings list sorting.
From Stdlib Require Import ZArith Lia Ascii.

#[local] Set Warnings "-clear-no-such-hyp".

(** * Data model *)

(** Python values used by the code: nodes, labels and parts are strings
    (unicode objects are identified with their UTF-8 byte strings, so
    [encode("utf-8")] is the identity); a [set] of nodes is a [gset string];
    a LevelDB store is a finite map from keys to unpickled values
    ([pickle.loads (pickle.dumps s) = s]). *)

Abbreviation node := string (only parsing).
Abbreviation node_set := (gset string) (only parsing).
Abbreviation table := (list (string * string)) (only parsing).
Abbreviation leveldb := (gmap string (gset string)) (only parsing).
Abbreviation write_batch := (list (string * gset string)) (only parsing).

(** The fields of a [YagoDict] object that the modelled methods read or
    write: four tables of [sql.db], the stores [kvs] and [idx], the two
    [leveldb.WriteBatch] objects and the private counter. *)
Record YagoDict : Type := mkYagoDict {
  yago_node : table;        (* (label, node) *)
  yago_cpnd : table;        (* (part, node), UNIQUE (part, node) *)
  yago_taxn : table;        (* (ins, cls) *)
  yago_hrch : table;        (* (child, parent) *)
  kvs : leveldb;
  idx : leveldb;
  kvs_batch : write_batch;
  idx_batch : write_batch;
  kvs_counter : Z
}.

(** Exceptions the modelled code can raise, and the error monad that
    threads them. *)
Inductive exn : Type := IndexError | ValueError | TypeError.

Inductive result (A : Type) : Type :=
| Ok (a : A)
| Raise (e : exn).
Arguments Ok {A} a.
Arguments Raise {A} e.

#[global] Instance exn_eq_dec : EqDecision exn.
Proof. solve_decision. Defined.

#[global] Instance result_eq_dec {A : Type} `{EqDecision A} :
  EqDecision (result A).
Proof. solve_decision. Defined.

#[global] Instance result_ret : MRet result := @Ok.
#[global] Instance result_bind : MBind result := λ A B k m,
  match m with
  | Ok a => k a
  | Raise e => Raise e
  end.

(** [SELECT col2 FROM t WHERE col1 = k], rows in table order. *)
Definition select_where (k : string) (t : table) : list string :=
  (filter (λ row, row.1 = k) t).*2.

(** * Taxonomy closure *)

Module Taxonomy.

(** [SELECT parent FROM yago_hrch WHERE child=?] *)
Definition hrch_parents (self : YagoDict) (child : node) : list node :=
  select_where child (yago_hrch self).

(** The [while len(new_classes) > 0] loop of [find_all_classes]; one unit
    of fuel per iteration, [None] when the fuel does not suffice. *)
Fixpoint find_all_classes_loop (self : YagoDict) (fuel : nat)
    (classes new_classes : list node) : option (list node) :=
  match new_classes with
  | [] => Some classes
  | _ :: _ =>
    match fuel with
    | O => None
    | S fuel' =>
      let classes := classes ++ new_classes in
      let children := new_classes in
      find_all_classes_loop self fuel' classes (children ≫= hrch_parents self)
    end
  end.

Definition find_all_classes (self : YagoDict) (fuel : nat) (child : node)
    : option node_set :=
  list_to_set <$>
    find_all_classes_loop self fuel [child] (hrch_parents self child).

(** [SELECT cls FROM yago_taxn WHERE ins=?], [None] when no row matches. *)
Definition find_class (self : YagoDict) (instance : node) : option node_set :=
  let classes := select_where instance (yago_taxn self) in
  if bool_decide (0 < length classes)%nat then Some (list_to_set classes)
  else None.

(** A child→parent edge of the hierarchy table. *)
Definition hrch_edge (self : YagoDict) (c p : node) : Prop :=
  (c, p) ∈ yago_hrch self.

End Taxonomy.

(** * Index build *)

Module Build.

(** Field updates of the object. *)
Definition set_yago_cpnd (t : table) (self : YagoDict) : YagoDict :=
  mkYagoDict (yago_node self) t (yago_taxn self) (yago_hrch self)
    (kvs self) (idx self) (kvs_batch self) (idx_batch self) (kvs_counter self).
Definition set_kvs (db : leveldb) (self : YagoDict) : YagoDict :=
  mkYagoDict (yago_node self) (yago_cpnd self) (yago_taxn self) (yago_hrch self)
    db (idx self) (kvs_batch self) (idx_batch self) (kvs_counter self).
Definition set_idx (db : leveldb) (self : YagoDict) : YagoDict :=
  mkYagoDict (yago_node self) (yago_cpnd self) (yago_taxn self) (yago_hrch self)
    (kvs self) db (kvs_batch self) (idx_batch self) (kvs_counter self).
Definition set_kvs_batch (b : write_batch) (self : YagoDict) : YagoDict :=
  mkYagoDict (yago_node self) (yago_cpnd self) (yago_taxn self) (yago_hrch self)
    (kvs self) (idx self) b (idx_batch self) (kvs_counter self).
Definition set_idx_batch (b : write_batch) (self : YagoDict) : YagoDict :=
  mkYagoDict (yago_node self) (yago_cpnd self) (yago_taxn self) (yago_hrch self)
    (kvs self) (idx self) (kvs_batch self) b (kvs_counter self).
Definition set_kvs_counter (c : Z) (self : YagoDict) : YagoDict :=
  mkYagoDict (yago_node self) (yago_cpnd self) (yago_taxn self) (yago_hrch self)
    (kvs self) (idx self) (kvs_batch self) (idx_batch self) c.

(** A [WriteBatch] is the list of its operations, the newest first.
    [WriteBatch.Put] adds one operation. *)
Definition Put (batch : write_batch) (key : string) (value : node_set)
    : write_batch :=
  (key, value) :: batch.

(** [LevelDB.Write]: the operations of the batch are applied, oldest
    first. *)
Definition Write (db : leveldb) (batch : write_batch) : leveldb :=
  foldr (λ op db, <[op.1 := op.2]> db) db batch.

(** [SELECT ... ORDER BY <first column>]: byte-wise order of the key. *)
Definition key_le (r1 r2 : string * string) : Prop :=
  String.leb r1.1 r2.1 = true.

#[global] Instance key_le_dec : RelDecision key_le.
Proof. intros r1 r2. unfold key_le. apply _. Defined.

Definition order_by_key (t : table) : table := merge_sort key_le t.

(** The grouped aggregation shared by [create_kvs_from_sql] and
    [create_idx_from_sql]. The Python variables [prev] and [node_set] are
    [None] together and are assigned together, hence one optional pair;
    [emit] stands for [self.kvs_insert_entryset] or [self.index_part]. *)
Definition emit_group (emit : YagoDict → string → node_set → YagoDict)
    (group : option (string * node_set)) (self : YagoDict) : YagoDict :=
  match group with
  | Some (prev, node_set) =>
    if bool_decide (0 < size node_set)%nat then emit self prev node_set
    else self
  | None => self
  end.

Definition group_step (emit : YagoDict → string → node_set → YagoDict)
    (st : option (string * node_set) * YagoDict) (row : string * string)
    : option (string * node_set) * YagoDict :=
  let '(group, self) := st in
  let '(key, node) := row in
  match group with
  | Some (prev, node_set) =>
    if bool_decide (key ≠ prev)
    then (Some (key, ∅ ∪ {[node]}), emit_group emit group self)
    else (Some (prev, node_set ∪ {[node]}), self)
  | None => (Some (key, ∅ ∪ {[node]}), self)
  end.

Definition group_rows (emit : YagoDict → string → node_set → YagoDict)
    (rows : table) (self : YagoDict) : YagoDict :=
  let '(group, self) := foldl (group_step emit) (None, self) rows in
  emit_group emit group self.

Section build.
(** [YagoEntry.word_re.findall], from the [re] library. *)
Variable findall : string → list string.
(** The flush interval, the literal [100000] in the source. *)
Variable flush_every : Z.
(** Whether the binding's [Write] empties the batch object it was given
    (py-leveldb leaves the operations in place). *)
Variable write_clears : bool.

Definition written (batch : write_batch) : write_batch :=
  if write_clears then [] else batch.

Definition kvs_insert_entryset (self : YagoDict) (label : string)
    (node_set : node_set) : YagoDict :=
  let self := set_kvs_batch (Put (kvs_batch self) label node_set) self in
  let self := set_kvs_counter (kvs_counter self + 1) self in
  if bool_decide (kvs_counter self `mod` flush_every = 0)%Z then
    (* self.kvs.Write(self.kvs_batch, sync=True) *)
    set_kvs_batch (written (kvs_batch self))
      (set_kvs (Write (kvs self) (kvs_batch self)) self)
  else self.

Definition index_part (self : YagoDict) (part : string)
    (node_set : node_set) : YagoDict :=
  let self := set_idx_batch (Put (idx_batch self) part node_set) self in
  let self := set_kvs_counter (kvs_counter self + 1) self in
  if bool_decide (kvs_counter self `mod` flush_every = 0)%Z then
    (* self.idx.Write(self.kvs_batch, sync=True) *)
    set_kvs_batch (written (kvs_batch self))
      (set_idx (Write (idx self) (kvs_batch self)) self)
  else self.

(** [INSERT INTO yago_cpnd]: a row violating [UNIQUE (part, node)] raises
    [sqlite3.Error], which is swallowed.  The column is declared
    [node INTEGER], so SQLite stores a text that reads as a number as that
    number ('12' and '012' both as 12, handed back to Python as an [int])
    and every other text as it is.  The rows here are those of node texts
    that stay texts, [stored_as_text] below, for which equality of rows is
    equality of the strings; results that range over all rows of the table
    carry that as a hypothesis. *)
Definition sql_insert_part (self : YagoDict) (part : string) (node : node)
    : YagoDict :=
  if bool_decide ((part, node) ∈ yago_cpnd self) then self
  else set_yago_cpnd (yago_cpnd self ++ [(part, node)]) self.

Definition create_kvs_from_sql (self : YagoDict) : YagoDict :=
  let self :=
    group_rows kvs_insert_entryset (order_by_key (yago_node self)) self in
  set_kvs_batch (written (kvs_batch self))
    (set_kvs (Write (kvs self) (kvs_batch self)) self).

Definition create_idx_from_sql (self : YagoDict) : YagoDict :=
  let self :=
    foldl (λ self '(label, node),
             foldl (λ self part, sql_insert_part self part node)
                   self (findall label))
          self (order_by_key (yago_node self)) in
  let self :=
    group_rows index_part (order_by_key (yago_cpnd self)) self in
  set_idx_batch (written (idx_batch self))
    (set_idx (Write (idx self) (idx_batch self)) self).

End build.

(** A node text that the [node INTEGER] column of [yago_cpnd] keeps as
    text: no text that starts with [<], as the node ids of YAGO do, reads
    as a number. *)
Definition stored_as_text (node : node) : bool := String.prefix "<" node.

(** The unbatched build the batched one is compared with: every record
    goes to its store with a direct [Put] the moment it is emitted. *)
Definition kvs_put_direct (self : YagoDict) (label : string)
    (node_set : node_set) : YagoDict :=
  set_kvs (<[label := node_set]> (kvs self)) self.

Definition idx_put_direct (self : YagoDict) (part : string)
    (node_set : node_set) : YagoDict :=
  set_idx (<[part := node_set]> (idx self)) self.

Definition create_kvs_unbatched (self : YagoDict) : YagoDict :=
  group_rows kvs_put_direct (order_by_key (yago_node self)) self.

Definition create_idx_unbatched (findall : string → list string)
    (self : YagoDict) : YagoDict :=
  let self :=
    foldl (λ self '(label, node),
             foldl (λ self part, sql_insert_part self part node)
                   self (findall label))
          self (order_by_key (yago_node self)) in
  group_rows idx_put_direct (order_by_key (yago_cpnd self)) self.

(** The flush interval of the source. *)
Definition FLUSH_EVERY : Z := 100000.

(** [word_re = \b[^\W\d_]+\b] on ASCII text: the maximal runs of word
    characters (letters, digits, underscore) that consist of letters only. *)
Definition is_letter (c : Ascii.ascii) : bool :=
  let n := Ascii.nat_of_ascii c in
  ((65 <=? n) && (n <=? 90) || (97 <=? n) && (n <=? 122))%nat.

Definition is_word_char (c : Ascii.ascii) : bool :=
  let n := Ascii.nat_of_ascii c in
  (is_letter c || (48 <=? n) && (n <=? 57) || (n =? 95))%nat.

Fixpoint word_runs (s : string) (run : string) (letters : bool)
    : list string :=
  let close := if letters && negb (String.eqb run "") then [run] else [] in
  match s with
  | EmptyString => close
  | String c s' =>
    if is_word_char c
    then word_runs s' (run +:+ String c EmptyString) (letters && is_letter c)
    else close ++ word_runs s' "" true
  end.

Definition ascii_findall (s : string) : list string := word_runs s "" true.

End Build.

(** * Compound resolver *)

(** Iteration order of a Python [set]: some enumeration of its elements,
    each once. The resolver is defined for any such order. *)
Class SetIter : Type := {
  set_iter : gset string → list string;
  set_iter_perm : ∀ s, set_iter s ≡ₚ elements s
}.

(** The values [find_compound2] can return besides [None]: a [set], or the
    [list] built by [filter] and by the singleton display. *)
Inductive pyval : Type :=
| PySet (s : gset string)
| PyList (l : list string).

#[global] Instance pyval_eq_dec : EqDecision pyval.
Proof. solve_decision. Defined.

Definition pyval_nodes (v : pyval) : list string :=
  match v with
  | PySet s => elements s
  | PyList l => l
  end.

Module Resolver.

(** [YagoEntry.is_class]: [node.startswith("<wordnet")]. *)
Definition is_class (node : node) : bool := String.prefix "<wordnet" node.

(** [str.split(sep)] for a one-character separator. *)
Fixpoint split (sep : Ascii.ascii) (s : string) : list string :=
  match s with
  | EmptyString => [EmptyString]
  | String c s' =>
    if Ascii.eqb c sep then EmptyString :: split sep s'
    else match split sep s' with
         | seg :: segs => String c seg :: segs
         | [] => [String c EmptyString]
         end
  end.

(** [len(node.split("_"))] *)
Definition segments (node : node) : nat := length (split "_"%char node).

(** [min(xs, key=key)]: the first element with the least key;
    [ValueError] on an empty sequence. *)
Definition py_min (key : string → nat) (xs : list string) : result string :=
  match xs with
  | [] => Raise ValueError
  | x :: rest =>
    Ok (foldl (λ best y, if (key y <? key best)%nat then y else best) x rest)
  end.

(** [itertools.combinations(l, r)] for [r >= 0], in its emission order. *)
Fixpoint combinations {A : Type} (l : list A) (r : nat) {struct l}
    : list (list A) :=
  match r, l with
  | O, _ => [[]]
  | S _, [] => []
  | S r', x :: l' => (cons x <$> combinations l' r') ++ combinations l' r
  end.

(** [list(itertools.combinations(l, r))]: a negative [r] is a [ValueError]. *)
Definition itertools_combinations (l : list string) (r : Z)
    : result (list (list string)) :=
  if bool_decide (r < 0)%Z then Raise ValueError
  else Ok (combinations l (Z.to_nat r)).

(** [xrange(start, stop)] *)
Definition xrange (start stop : Z) : list Z := seqZ start (stop - start).

(** [kvs.Get] / [idx.Get] with [KeyError] turned into [None]. *)
Definition kvs_map_lemma (self : YagoDict) (lemma : string)
    : option node_set := kvs self !! lemma.

Definition idx_map_part (self : YagoDict) (part : string)
    : option node_set := idx self !! part.

(** The [for ns in node_sets] loop of [idx_map_compound], entered with
    [intersection] bound to a set. *)
Fixpoint intersect_all (intersection : node_set)
    (node_sets : list (option node_set)) : node_set :=
  match node_sets with
  | [] => intersection
  | Some ns :: rest => intersect_all (intersection ∩ ns) rest
  | None :: _ => ∅
  end.

(** [intersection = node_sets[0]] raises [IndexError] on an empty compound.
    The loop starts over at the first element: when that is [None] its
    first iteration returns [set()], otherwise [intersection] is a set
    from there on (it aliases [node_sets[0]], which the update in place
    leaves equal to itself in the first iteration and which is not read
    again). *)
Definition idx_map_compound (self : YagoDict) (compound : list string)
    : result node_set :=
  let node_sets := idx_map_part self <$> compound in
  match node_sets with
  | [] => Raise IndexError
  | None :: _ => Ok ∅
  | Some intersection :: _ => Ok (intersect_all intersection node_sets)
  end.

Section resolver.
Context `{SetIter}.

Definition expand_instances (self : YagoDict) (node_set : node_set)
    : gset string :=
  foldl (λ new_nodes node,
           if negb (is_class node) then
             match Taxonomy.find_class self node with
             | Some found_nodes =>
               foldl (λ new_nodes foud_node, new_nodes ∪ {[foud_node]})
                     new_nodes (set_iter found_nodes)
             | None => new_nodes
             end
           else new_nodes ∪ {[node]})
        ∅ (set_iter node_set).

Definition find_compound (self : YagoDict) (lemmas : list string)
    : result (option node_set) :=
  if bool_decide (length lemmas = 0)%nat then Ok None else
  initial_sets ← mapM (λ lemma, idx_map_compound self [lemma]) lemmas;
  let initial_sets := filter (λ s, 0 < size s)%nat initial_sets in
  if bool_decide (length initial_sets = 0)%nat then Ok None else
  let initial_sets := expand_instances self <$> initial_sets in
  match initial_sets with
  | [] => Raise IndexError
  | first :: rest =>
    let intersection := foldl (∩) first rest in
    if bool_decide (0 < size intersection)%nat then Ok (Some intersection)
    else Ok (Some ∅)
  end.

(** The state of the search: [(best_nodes, best_len)]. *)
Definition BEST_LEN : Z := 0xFFFFFF.

Definition consider (min_threshold : Z) (best : option node_set * Z)
    (nodes : node_set) : option node_set * Z :=
  let len := Z.of_nat (size nodes) in
  if bool_decide (min_threshold ≤ len ∧ len ≤ best.2)%Z
  then (Some nodes, len) else best.

(** [for comb in combs] *)
Fixpoint for_combs (self : YagoDict) (min_threshold : Z)
    (combs : list (list string)) (best : option node_set * Z)
    : result (option node_set * Z) :=
  match combs with
  | [] => Ok best
  | comb :: combs' =>
    nodes ← idx_map_compound self comb;
    for_combs self min_threshold combs' (consider min_threshold best nodes)
  end.

(** [for comb_len in xrange(...)] *)
Fixpoint for_comb_lens (self : YagoDict) (lemmas : list string)
    (min_threshold : Z) (comb_lens : list Z) (best : option node_set * Z)
    : result (option node_set * Z) :=
  match comb_lens with
  | [] => Ok best
  | comb_len :: comb_lens' =>
    combs ← itertools_combinations lemmas comb_len;
    best ← for_combs self min_threshold combs best;
    for_comb_lens self lemmas min_threshold comb_lens' best
  end.

(** The [prefer_classes] branch, entered with a best set. *)
Definition prefer (best_nodes : node_set) : result pyval :=
  let classes_found := existsb is_class (set_iter best_nodes) in
  if classes_found
  then Ok (PyList (filter (λ node, is_class node) (set_iter best_nodes)))
  else m ← py_min segments (set_iter best_nodes); Ok (PyList [m]).

Definition find_compound2 (self : YagoDict) (lemmas : list string)
    (min_threshold init_len max_len : Z) (prefer_classes : bool)
    : result (option pyval) :=
  if bool_decide (length lemmas = 0)%nat then Ok None else
  let stop := Z.min (Z.of_nat (length lemmas) + 1) (max_len + 1) in
  best ← for_comb_lens self lemmas min_threshold (xrange init_len stop)
                       (None, BEST_LEN);
  match best.1 with
  | Some best_nodes =>
    if prefer_classes then v ← prefer best_nodes; Ok (Some v)
    else Ok (Some (PySet best_nodes))
  | None => Ok None
  end.

End resolver.

End Resolver.

(** * Relational store: the remaining inserts and queries *)

Module Tables.

Definition set_yago_node (t : table) (self : YagoDict) : YagoDict :=
  mkYagoDict t (yago_cpnd self) (yago_taxn self) (yago_hrch self)
    (kvs self) (idx self) (kvs_batch self) (idx_batch self) (kvs_counter self).
Definition set_yago_taxn (t : table) (self : YagoDict) : YagoDict :=
  mkYagoDict (yago_node self) (yago_cpnd self) t (yago_hrch self)
    (kvs self) (idx self) (kvs_batch self) (idx_batch self) (kvs_counter self).
Definition set_yago_hrch (t : table) (self : YagoDict) : YagoDict :=
  mkYagoDict (yago_node self) (yago_cpnd self) (yago_taxn self) t
    (kvs self) (idx self) (kvs_batch self) (idx_batch self) (kvs_counter self).

(** [INSERT INTO yago_node (label, node)]: the table has no uniqueness
    constraint besides its row id, so the row is always added. *)
Definition sql_insert_entry (self : YagoDict) (label : string) (node : node)
    : YagoDict :=
  set_yago_node (yago_node self ++ [(label, node)]) self.

(** [INSERT INTO yago_taxn (ins, cls)] under [UNIQUE (ins, cls)]; the
    [sqlite3.Error] of a duplicate is swallowed. *)
Definition sql_insert_txn_transition (self : YagoDict)
    (inst_node class_node : node) : YagoDict :=
  if bool_decide ((inst_node, class_node) ∈ yago_taxn self) then self
  else set_yago_taxn (yago_taxn self ++ [(inst_node, class_node)]) self.

(** [INSERT INTO yago_hrch (child, parent)] under [UNIQUE (parent, child)]. *)
Definition sql_insert_txn_relation (self : YagoDict) (child parent : node)
    : YagoDict :=
  if bool_decide ((child, parent) ∈ yago_hrch self) then self
  else set_yago_hrch (yago_hrch self ++ [(child, parent)]) self.

(** [SELECT node FROM yago_node WHERE label=?], [None] when no row
    matches. *)
Definition sql_map_lemma (self : YagoDict) (lemma : string)
    : option node_set :=
  let nodes := select_where lemma (yago_node self) in
  if bool_decide (0 < length nodes)%nat then Some (list_to_set nodes)
  else None.

End Tables.

(** * Auxiliary tables: concept relations and names *)

(** The tables [conceptnet] (rows [(rel, concept, form, pos)], all four
    columns the primary key) and [names] (primary key [name]); no method
    modelled above reads or writes them. *)
Record AuxTables : Type := mkAuxTables {
  conceptnet : list (Z * string * string * string);
  names : list string
}.

(** A call that returns, or one that dies on the attribute lookup
    [logging.msg], which the [logging] module does not have. *)
Inductive outcome (A : Type) : Type :=
| Returns (a : A)
| RaisesAttributeError.
Arguments Returns {A} a.
Arguments RaisesAttributeError {A}.

Module Concepts.

(** [ConceptRelation] *)
Definition ConceptuallyRelatedTo : Z := 1.
Definition DerivedFrom : Z := 2.
Definition Synonym : Z := 3.

Section concepts.
(** [unicode.lower] *)
Variable lower : string → string.

Definition sql_insert_concept (aux : AuxTables)
    (rel_name form concept : string) : outcome AuxTables :=
  let concept_spl := Resolver.split "/"%char concept in
  let concept := lower (default EmptyString (head concept_spl)) in
  let pos :=
    if bool_decide (1 < length concept_spl)%nat
    then default EmptyString (last concept_spl) else "?" in
  let form := lower form in
  let insert values :=
    (* a row violating the primary key raises [sqlite3.Error]: swallowed *)
    Returns (if bool_decide (values ∈ conceptnet aux) then aux
             else mkAuxTables (conceptnet aux ++ [values]) (names aux)) in
  if String.eqb rel_name "DerivedFrom"
  then insert (DerivedFrom, concept, form, pos)
  else if String.eqb rel_name "ConceptuallyRelatedTo"
  then insert (ConceptuallyRelatedTo, concept, form, pos)
  else if String.eqb rel_name "Synonym"
  then insert (Synonym, concept, form, pos)
  else RaisesAttributeError.

End concepts.

(** [lower] on ASCII text. *)
Definition ascii_lower_char (c : Ascii.ascii) : Ascii.ascii :=
  let n := Ascii.nat_of_ascii c in
  if ((65 <=? n) && (n <=? 90))%nat then Ascii.ascii_of_nat (n + 32) else c.

Fixpoint ascii_lower (s : string) : string :=
  match s with
  | EmptyString => EmptyString
  | String c s' => String (ascii_lower_char c) (ascii_lower s')
  end.

(** [SELECT concept FROM conceptnet WHERE form=? (AND rel=?)] *)
Definition find_concept (aux : AuxTables) (form : string) (rel : option Z)
    : option (gset string) :=
  let concepts :=
    match rel with
    | None =>
      (λ row, row.1.1.2) <$>
        filter (λ row : Z * string * string * string, row.1.2 = form)
               (conceptnet aux)
    | Some rel =>
      (λ row, row.1.1.2) <$>
        filter (λ row : Z * string * string * string,
                  row.1.2 = form ∧ row.1.1.1 = rel)
               (conceptnet aux)
    end in
  if bool_decide (0 < length concepts)%nat then Some (list_to_set concepts)
  else None.

(** [INSERT INTO names (name)] under [PRIMARY KEY (name)]. *)
Definition sql_insert_name (aux : AuxTables) (name : string) : AuxTables :=
  if bool_decide (name ∈ names aux) then aux
  else mkAuxTables (conceptnet aux) (names aux ++ [name]).

(** [SELECT name FROM names WHERE name=?], [len(list(names)) > 0]. *)
Definition is_name (aux : AuxTables) (name : string) : bool :=
  bool_decide (0 < length (filter (λ n, n = name) (names aux)))%nat.

End Concepts.

(** * Dump rows *)

Module YagoEntry.

(** The tab character. *)
Definition TAB : Ascii.ascii := Ascii.ascii_of_nat 9.

(** What a call of [extract_transition] comes to: the pair it returns, or
    the exception that leaves it. *)
Inductive transition : Type :=
| Transition (node_a node_b : string)
| RaisesUnicodeDecodeError
| RaisesIndexError.

#[global] Instance transition_eq_dec : EqDecision transition.
Proof. solve_decision. Defined.

Section decode.
(** Whether the codec takes the bytes for well-formed UTF-8, that is,
    whether [str.decode("utf-8")] returns rather than raises. *)
Variable utf8 : string → bool.

(** [tsv_line.decode("utf-8")]: [None] stands for [UnicodeDecodeError].
    The text that comes out is kept as its UTF-8 bytes; the byte 9 occurs
    in them only as the tab character, so that splitting the text at tabs
    is splitting the bytes at 9. *)
Definition decode (tsv_line : string) : option string :=
  if utf8 tsv_line then Some tsv_line else None.

(** [YagoEntry.extract_transition]: the line is decoded, split at the
    tabs, and fields 1 and 3 are returned; an index beyond the last field
    raises [IndexError]. *)
Definition extract_transition (tsv_line : string) : transition :=
  match decode tsv_line with
  | None => RaisesUnicodeDecodeError
  | Some line =>
    let row := Resolver.split TAB line in
    match row !! 1%nat with
    | None => RaisesIndexError
    | Some node_a =>
      match row !! 3%nat with
      | None => RaisesIndexError
      | Some node_b => Transition node_a node_b
      end
    end
  end.

End decode.

(** Bytes below 128 only: such a line is well-formed UTF-8 for every
    version of the codec. *)
Fixpoint ascii_bytes (s : string) : bool :=
  match s with
  | EmptyString => true
  | String c s' => (Ascii.nat_of_ascii c <? 128)%nat && ascii_bytes s'
  end.

End YagoEntry.

(** * Triple rows *)

(** An argument of a triple: the markers [ARG_NONE] and [ARG_EMPTY], or the
    pair [(lemmas, pos)]. *)
Inductive triple_arg : Type :=
| ARG_NONE
| ARG_EMPTY
| ARG (lemmas pos : string).

#[global] Instance triple_arg_eq_dec : EqDecision triple_arg.
Proof. solve_decision. Defined.

Module Triples.

(** The body of the loop of [parse_triple_row]: [arg.split("-")] is never
    empty, [pos] is its last element and [lemmas] the others joined on
    the empty string. *)
Definition parse_arg (arg : string) : triple_arg :=
  if String.eqb arg "<NONE>" then ARG_NONE
  else if String.eqb arg "<->" then ARG_EMPTY
  else
    let arg := Resolver.split "-"%char arg in
    let pos := default EmptyString (last arg) in
    let lemmas := String.concat "" (take (length arg - 1) arg) in
    ARG lemmas pos.

(** [csv_row[0]] raises [IndexError] on an empty row; on any other row
    [csv_row[-1]] exists and [csv_row[1:(len(csv_row)-1)]] is the middle. *)
Definition parse_triple_row (csv_row : list string)
    : result (string * list triple_arg * string) :=
  match csv_row with
  | [] => Raise IndexError
  | rel_name :: _ =>
    let freq := default EmptyString (last csv_row) in
    let args := parse_arg <$> drop 1 (take (length csv_row - 1) csv_row) in
    Ok (rel_name, args, freq)
  end.

End Triples.

(** * Reference notions used in the statements *)

(** What one node contributes to the one-hop expansion: a class stays,
    an instance is replaced by its direct classes, if it has any. *)
Definition expand_node (self : YagoDict) (n : node) : gset string :=
  if Resolver.is_class n then {[n]}
  else default ∅ (Taxonomy.find_class self n).

(** The per-lemma result sets that survive in Strategy A: the Part Index
    lookups that are present and not empty, in the order of the lemmas. *)
Definition found_sets (self : YagoDict) (lemmas : list string)
    : list (gset string) :=
  filter (λ s, s ≠ ∅) (omap (Resolver.idx_map_part self) lemmas).

(** The nodes a table holds under one key. *)
Definition nodes_under (t : table) (key : string) : gset string :=
  list_to_set (select_where key t).

(** The records the grouped aggregation emits for a list of rows: one per
    maximal run of rows with the same key; [cur] is the run being read. *)
Fixpoint runs (cur : string * gset string) (rows : table)
    : list (string * gset string) :=
  match rows with
  | [] => [cur]
  | (key, node) :: rows' =>
    if bool_decide (key ≠ cur.1) then cur :: runs (key, ∅ ∪ {[node]}) rows'
    else runs (cur.1, cur.2 ∪ {[node]}) rows'
  end.

Definition groups (rows : table) : list (string * gset string) :=
  match rows with
  | [] => []
  | (key, node) :: rows' => runs (key, ∅ ∪ {[node]}) rows'
  end.

(** Records put into a store one after the other. *)
Definition put_all (db : leveldb) (records : list (string * gset string))
    : leveldb :=
  foldl (λ db r, <[r.1 := r.2]> db) db records.

(** What the Label Index holds once its batch is written to it. *)
Definition kvs_pending (self : YagoDict) : leveldb :=
  Build.Write (kvs self) (kvs_batch self).

(** Whether one of the next [length records] ticks of the counter, from
    [counter] on, lands on a multiple of the flush interval. *)
Fixpoint flushed (flush_every counter : Z)
    (records : list (string * gset string)) : bool :=
  match records with
  | [] => false
  | _ :: records' =>
    bool_decide ((counter + 1) `mod` flush_every = 0)%Z
    || flushed flush_every (counter + 1) records'
  end.

(** The rows of [yago_cpnd] once the labels are cut into parts. *)
Definition with_parts (findall : string → list string) (self : YagoDict)
    : YagoDict :=
  foldl (λ self '(label, node),
           foldl (λ self part, Build.sql_insert_part self part node)
                 self (findall label))
        self (Build.order_by_key (yago_node self)).

(** What the Part Index holds once its batch is written to it. *)
Definition idx_pending (self : YagoDict) : leveldb :=
  Build.Write (idx self) (idx_batch self).

(** The string without the occurrences of one character. *)
Fixpoint without (sep : Ascii.ascii) (s : string) : string :=
  match s with
  | EmptyString => EmptyString
  | String c s' =>
    if Ascii.eqb c sep then without sep s' else String c (without sep s')
  end.

(** Whether a character occurs in a string. *)
Fixpoint occurs (sep : Ascii.ascii) (s : string) : bool :=
  match s with
  | EmptyString => false
  | String c s' => Ascii.eqb c sep || occurs sep s'
  end.

(** The node set of a compound, [set()] standing in where
    [idx_map_compound] raises. *)
Definition compound_nodes (self : YagoDict) (compound : list string)
    : gset string :=
  match Resolver.idx_map_compound self compound with
  | Ok s => s
  | Raise _ => ∅
  end.

(** The combinations Strategy B enumerates, in its enumeration order:
    lengths from [init_len] up, the combinations of one length in the
    order [itertools.combinations] emits them. *)
Definition enumerated (lemmas : list string) (init_len max_len : Z)
    : list (list string) :=
  Resolver.xrange init_len
    (Z.min (Z.of_nat (length lemmas) + 1) (max_len + 1))
  ≫= λ comb_len, Resolver.combinations lemmas (Z.to_nat comb_len).

Definition candidate_sets (self : YagoDict) (lemmas : list string)
    (init_len max_len : Z) : list (gset string) :=
  compound_nodes self <$> enumerated lemmas init_len max_len.

(** [len(nodes)] *)
Definition len (s : gset string) : Z := Z.of_nat (size s).

(** What the search state says about the candidate sets seen so far. *)
Definition search_inv (min_threshold : Z) (sets : list (gset string))
    (best : option (gset string) * Z) : Prop :=
  match best.1 with
  | None =>
    best.2 = Resolver.BEST_LEN ∧
    ∀ s, s ∈ sets → ¬ (min_threshold ≤ len s ≤ Resolver.BEST_LEN)%Z
  | Some b =>
    best.2 = len b ∧ (min_threshold ≤ len b ≤ Resolver.BEST_LEN)%Z ∧
    ∃ i, sets !! i = Some b ∧
         (∀ j s, sets !! j = Some s → (min_threshold ≤ len s)%Z →
                 (len b ≤ len s)%Z) ∧
         (∀ j s, sets !! j = Some s → (min_threshold ≤ len s)%Z →
                 len s = len b → (j ≤ i)%nat)
  end.

(** The order in which [elements] lists a set is one iteration order. *)
Definition elements_iter : SetIter :=
  {| set_iter := elements; set_iter_perm := λ s, reflexivity _ |}.

(** A dictionary that only has hierarchy rows. *)
Definition hierarchy_only (h : table) : YagoDict :=
  mkYagoDict [] [] [] h ∅ ∅ [] [] 0.

(** The two-node cycle A→B→A. *)
Definition cycle_AB : YagoDict := hierarchy_only [("A", "B"); ("B", "A")].

(** A hierarchy with a cycle that the node [C] does not reach. *)
Definition cycle_elsewhere : YagoDict :=
  hierarchy_only [("C", "D"); ("A", "B"); ("B", "A")].

(** A dictionary built from label rows alone, and one that also has
    instance→class rows; both indexes are built by the code under test. *)
Definition labelled (labels taxn : table) : YagoDict :=
  mkYagoDict labels [] taxn [] ∅ ∅ [] [] 0.

Definition built (labels taxn : table) : YagoDict :=
  Build.create_idx_from_sql Build.ascii_findall Build.FLUSH_EVERY false
    (Build.create_kvs_from_sql Build.FLUSH_EVERY false (labelled labels taxn)).

(** One instance labelled with two words, no class known for it. *)
Definition tim_story : YagoDict := built [("tim story", "<Tim_Story>")] [].

(** The scenario of the specification: two nodes under "dog", one under
    "house". *)
Definition dog_house : YagoDict :=
  built [("dog", "<wordnet_dog_1>"); ("dog", "<wordnet_dog_2>");
         ("house", "<wordnet_house_1>")] [].

(** A two-word label of an instance that has a class, and a class under
    the second word. *)
Definition story_teller : YagoDict :=
  built [("tim story", "<Tim_Story>"); ("story", "<wordnet_story_1>")]
        [("<Tim_Story>", "<wordnet_director_1>")].

(** Two words with one class node each. *)
Definition alpha_beta : YagoDict :=
  built [("alpha", "<wordnet_alpha_1>"); ("beta", "<wordnet_beta_1>")] [].

(** One word labelling a class and an instance. *)
Definition class_and_instance : YagoDict :=
  built [("story", "<wordnet_story_1>"); ("story", "<Tim_Story>")] [].

(** One word labelling two instances. *)
Definition two_instances : YagoDict :=
  built [("story", "<Tim>"); ("story", "<Toy_Story_3>")] [].

(** A dictionary with nothing in it. *)
Definition empty_dict : YagoDict := built [] [].

(** One two-word label. *)
Definition new_york : YagoDict :=
  labelled [("new york", "<New_York>")] [].

(** The object after [create_kvs_from_sql] has emitted the record of
    "new york", at the moment its counter stands at 99999: the record is in
    the Label Index and, the binding leaving batches as they are, still in
    [kvs_batch]. *)
Definition new_york_at_99999 : YagoDict :=
  mkYagoDict [("new york", "<New_York>")] [] [] []
    {[ "new york" := {[ "<New_York>" ]} ]} ∅
    [("new york", {[ "<New_York>" ]})] [] 99999.

(** A hierarchy with a cycle that is entered from outside: C→A→B→A. *)
Definition lasso : YagoDict :=
  hierarchy_only [("C", "A"); ("A", "B"); ("B", "A")].

(** A chain without cycle. *)
Definition chain : YagoDict :=
  hierarchy_only [("<wordnet_c1>", "<wordnet_c2>")].

(** An instance with two direct classes. *)
Definition tim_classes : YagoDict :=
  labelled [("tim story", "<Tim_Story>")]
    [("<Tim_Story>", "<wordnet_director_1>");
     ("<Tim_Story>", "<wordnet_person_1>")].

(** Auxiliary tables with nothing in them. *)
Definition empty_aux : AuxTables := mkAuxTables [] [].

(** Closed decidable facts about concrete dictionaries are settled by
    running their decision procedure. *)
Ltac by_evaluation := apply (bool_decide_unpack _); vm_compute; exact I.

(** * Properties of the taxonomy closure *)

Section closure.
Import Taxonomy.
Variable self : YagoDict.

Lemma elem_of_select_where k t v :
  v ∈ select_where k t ↔ (k, v) ∈ t.
Proof.
  unfold select_where. rewrite list_elem_of_fmap. split.
  - intros [[k' v'] [-> [Hk Hin]%list_elem_of_filter]]. simpl in *. by subst.
  - intros Hin. exists (k, v). split; [done|].
    apply list_elem_of_filter. done.
Qed.

Lemma elem_of_hrch_parents c p :
  p ∈ hrch_parents self c ↔ hrch_edge self c p.
Proof. apply elem_of_select_where. Qed.

(** What [find_class] hands to a caller that takes [None] for the empty
    set: the classes that [yago_taxn] lists for the instance. *)
Lemma elem_of_find_class_default (i x : node) :
  x ∈ default (∅ : gset string) (find_class self i) ↔
  (i, x) ∈ yago_taxn self.
Proof.
  unfold find_class. rewrite <-elem_of_select_where.
  destruct (select_where i (yago_taxn self)) as [|c classes].
  - rewrite bool_decide_eq_false_2 by (simpl; lia). simpl.
    rewrite elem_of_nil. set_solver.
  - rewrite bool_decide_eq_true_2 by (simpl; lia). cbn [from_option id].
    apply (elem_of_list_to_set (C:=gset string)).
Qed.

Lemma find_all_classes_loop_step fuel classes n new_classes :
  find_all_classes_loop self (S fuel) classes (n :: new_classes) =
  find_all_classes_loop self fuel (classes ++ n :: new_classes)
    ((n :: new_classes) ≫= hrch_parents self).
Proof. reflexivity. Qed.

(** What the loop has collected when it stops: the nodes it started
    with and everything reachable from the current frontier. *)
Lemma find_all_classes_loop_spec fuel : ∀ classes new_classes res,
  find_all_classes_loop self fuel classes new_classes = Some res →
  ∀ x, x ∈ res ↔
       x ∈ classes ∨ ∃ y, y ∈ new_classes ∧ rtc (hrch_edge self) y x.
Proof.
  assert (Hnil : ∀ (classes : list node) x,
    x ∈ classes ↔
    x ∈ classes ∨ ∃ y, y ∈ @nil node ∧ rtc (hrch_edge self) y x).
  { intros classes x. split; [auto|].
    intros [?|(y & Hy & _)]; [done|]. by apply elem_of_nil in Hy. }
  induction fuel as [|fuel IH]; intros classes new res Hrun x.
  - destruct new; simplify_eq/=. apply Hnil.
  - destruct new as [|n new]; [simplify_eq/=; apply Hnil|].
    rewrite find_all_classes_loop_step in Hrun.
    rewrite (IH _ _ _ Hrun x), elem_of_app. split.
    + intros [[?|Hx]|(y & Hy & Hyx)]; [by left| |].
      * right. exists x. split; [done|]. apply rtc_refl.
      * apply list_elem_of_bind in Hy as (z & Hy & Hz).
        right. exists z. split; [done|].
        eapply rtc_l; [|exact Hyx]. by apply elem_of_hrch_parents.
    + intros [?|(y & Hy & Hyx)]; [by left; left|].
      inversion Hyx as [|? z ? Hedge Hzx]; subst.
      * left. by right.
      * right. exists z. split; [|done].
        apply list_elem_of_bind. exists y. split; [|done].
        by apply elem_of_hrch_parents.
Qed.

(** With a rank that decreases along every edge leaving a node that the
    walk can reach, the frontier dies out after at most [bound]
    iterations.  [reach] is any set of nodes closed under the edges; the
    frontier never leaves it. *)
Lemma find_all_classes_loop_terminates (reach : node → Prop)
    (rank : node → nat) :
  (∀ c p, reach c → hrch_edge self c p → reach p) →
  (∀ c p, reach c → hrch_edge self c p → (rank p < rank c)%nat) →
  ∀ fuel bound classes new_classes,
    (∀ x, x ∈ new_classes → reach x ∧ (rank x < bound)%nat) →
    (bound ≤ fuel)%nat →
    is_Some (find_all_classes_loop self fuel classes new_classes).
Proof.
  intros Hclosed Hrank.
  induction fuel as [|fuel IH]; intros bound classes new Hb Hf.
  - destruct new as [|n new]; [by eexists|].
    destruct (Hb n (list_elem_of_here _ _)). lia.
  - destruct new as [|n new]; [by eexists|].
    rewrite find_all_classes_loop_step.
    assert (1 ≤ bound)%nat
      by (destruct (Hb n (list_elem_of_here _ _)); lia).
    apply (IH (bound - 1)%nat); [|lia].
    intros x (c & Hx & Hc)%list_elem_of_bind.
    apply elem_of_hrch_parents in Hx.
    destruct (Hb c Hc) as [Hreach Hlt]. split.
    + by apply (Hclosed c).
    + specialize (Hrank c x Hreach Hx). lia.
Qed.

(** Fuel beyond what the loop needs does not change its result. *)
Lemma find_all_classes_loop_mono fuel : ∀ fuel' classes new_classes res,
  find_all_classes_loop self fuel classes new_classes = Some res →
  (fuel ≤ fuel')%nat →
  find_all_classes_loop self fuel' classes new_classes = Some res.
Proof.
  induction fuel as [|fuel IH]; intros fuel' classes new res Hrun Hle.
  - destruct new; simplify_eq/=. by destruct fuel'.
  - destruct new as [|n new]; simplify_eq/=; [by destruct fuel'|].
    destruct fuel' as [|fuel']; [lia|]. simpl. apply IH; [done|lia].
Qed.

End closure.

(** On the cycle the frontier alternates between [B] and [A] for ever. *)
Lemma cycle_AB_loop_diverges fuel : ∀ classes,
  Taxonomy.find_all_classes_loop cycle_AB fuel classes ["B"] = None ∧
  Taxonomy.find_all_classes_loop cycle_AB fuel classes ["A"] = None.
Proof.
  induction fuel as [|fuel IH]; intros classes; [done|].
  split; simpl; apply IH.
Qed.

(** C1, as stated, fails on the two-node cycle A→B→A: no amount of fuel
    lets [find_all_classes] return on [A]. *)
Lemma find_all_classes_cycle_never_returns :
  ¬ ∃ fuel, is_Some (Taxonomy.find_all_classes cycle_AB fuel "A").
Proof.
  intros [fuel [s Hs]]. unfold Taxonomy.find_all_classes in Hs.
  change (Taxonomy.hrch_parents cycle_AB "A") with ["B"] in Hs.
  by rewrite (proj1 (cycle_AB_loop_diverges fuel ["A"])) in Hs.
Qed.

(** C1 (amended): the loop keeps no visited set; when no cycle can be
    reached from [child] (a rank decreases along every child→parent edge
    that leaves a node reachable from [child]; cycles elsewhere in the
    table do not matter), [find_all_classes] returns with any fuel of at
    least [rank child], and the returned set holds [child] and exactly the
    nodes reachable from it. *)
Theorem find_all_classes_acyclic (self : YagoDict) (rank : node → nat)
    (child : node) :
  (∀ c p, rtc (Taxonomy.hrch_edge self) child c →
          Taxonomy.hrch_edge self c p → (rank p < rank c)%nat) →
  ∃ s, (∀ fuel, (rank child ≤ fuel)%nat →
                Taxonomy.find_all_classes self fuel child = Some s) ∧
       child ∈ s ∧
       ∀ x, x ∈ s ↔ rtc (Taxonomy.hrch_edge self) child x.
Proof.
  intros Hrank.
  destruct (find_all_classes_loop_terminates self
              (rtc (Taxonomy.hrch_edge self) child) rank
              (λ c p Hc Hcp, rtc_r _ _ _ Hc Hcp) Hrank (rank child)
              (rank child) [child] (Taxonomy.hrch_parents self child))
    as [res Hres]; [|done|].
  { intros x Hx%elem_of_hrch_parents. split.
    - by apply rtc_once.
    - apply (Hrank child x); [apply rtc_refl|done]. }
  pose proof (find_all_classes_loop_spec self _ _ _ _ Hres) as Hspec.
  assert (Hmem : ∀ x, x ∈ (list_to_set res : gset string) ↔
                      rtc (Taxonomy.hrch_edge self) child x).
  { intros x. rewrite elem_of_list_to_set, Hspec. split.
    - intros [->%list_elem_of_singleton|(y & Hy & Hyx)]; [apply rtc_refl|].
      eapply rtc_l; [|exact Hyx]. by apply elem_of_hrch_parents.
    - intros Hx. inversion Hx as [|? y ? Hedge Hyx]; subst.
      + left. apply list_elem_of_here.
      + right. exists y. split; [|done]. by apply elem_of_hrch_parents. }
  exists (list_to_set res). split; [|split; [|done]].
  - intros fuel Hfuel. unfold Taxonomy.find_all_classes.
    by rewrite (find_all_classes_loop_mono self _ fuel _ _ _ Hres Hfuel).
  - apply Hmem, rtc_refl.
Qed.

(** From [C] only [C] and [D] can be reached in [cycle_elsewhere]. *)
Lemma cycle_elsewhere_reach (c : node) :
  rtc (Taxonomy.hrch_edge cycle_elsewhere) "C" c → c = "C" ∨ c = "D".
Proof.
  revert c.
  apply (rtc_ind_r (R := Taxonomy.hrch_edge cycle_elsewhere)
           (λ c, c = "C" ∨ c = "D") "C"); [by left|].
  intros y z _ Hedge Hy.
  unfold Taxonomy.hrch_edge in Hedge. simpl in Hedge. right.
  repeat (apply elem_of_cons in Hedge as [Hedge|Hedge];
          [by destruct Hy; simplify_eq|]).
  by apply elem_of_nil in Hedge.
Qed.

(** The table holds the cycle A→B→A, which [C] does not reach: the walk
    from [C] returns [C] and its parent [D]. *)
Lemma find_all_classes_acyclic_witness :
  ∃ s, (∀ fuel, (1 ≤ fuel)%nat →
          Taxonomy.find_all_classes cycle_elsewhere fuel "C" = Some s) ∧
       "C" ∈ s ∧
       ∀ x, x ∈ s ↔ rtc (Taxonomy.hrch_edge cycle_elsewhere) "C" x.
Proof.
  apply (find_all_classes_acyclic cycle_elsewhere
           (λ n, if String.eqb n "C" then 1%nat else 0%nat) "C").
  intros c p Hreach Hedge.
  destruct (cycle_elsewhere_reach c Hreach) as [-> | ->];
    unfold Taxonomy.hrch_edge in Hedge; simpl in Hedge;
    repeat (apply elem_of_cons in Hedge as [Hedge|Hedge];
            [simplify_eq; simpl; lia|]);
    by apply elem_of_nil in Hedge.
Defined.

(** On that table the walk from [C] returns exactly [C] and [D], while
    the walk from [A] never returns. *)
Lemma cycle_elsewhere_runs :
  Taxonomy.find_all_classes cycle_elsewhere 1 "C" = Some {["C"; "D"]} ∧
  Taxonomy.find_all_classes cycle_elsewhere 1000 "A" = None.
Proof. split; by_evaluation. Qed.


(** * Properties of Strategy A *)

Section strategy_a.
Import Resolver.
Context `{SetIter}.
Variable self : YagoDict.

Lemma elem_of_set_iter (s : gset string) x : x ∈ set_iter s ↔ x ∈ s.
Proof. by rewrite (set_iter_perm s), elem_of_elements. Qed.

Lemma foldl_add_elem_of (l : list string) (acc : gset string) x :
  x ∈ foldl (λ new_nodes foud_node, new_nodes ∪ {[foud_node]}) acc l ↔
  x ∈ acc ∨ x ∈ l.
Proof.
  revert acc. induction l as [|y l IH]; intros acc; simpl.
  - rewrite elem_of_nil. tauto.
  - rewrite IH, elem_of_union, elem_of_singleton, elem_of_cons. tauto.
Qed.

Lemma elem_of_expand_instances (s : gset string) x :
  x ∈ expand_instances self s ↔ ∃ n, n ∈ s ∧ x ∈ expand_node self n.
Proof.
  unfold expand_instances.
  assert (Hgen : ∀ (l : list string) (acc : gset string),
    x ∈ foldl (λ new_nodes node,
                 if negb (is_class node) then
                   match Taxonomy.find_class self node with
                   | Some found_nodes =>
                     foldl (λ new_nodes foud_node, new_nodes ∪ {[foud_node]})
                           new_nodes (set_iter found_nodes)
                   | None => new_nodes
                   end
                 else new_nodes ∪ {[node]}) acc l ↔
    x ∈ acc ∨ ∃ n, n ∈ l ∧ x ∈ expand_node self n).
  { induction l as [|n l IH]; intros acc; simpl.
    - split; [auto|]. intros [?|(n & Hn & _)]; [done|].
      by apply elem_of_nil in Hn.
    - rewrite IH. unfold expand_node at 2.
      setoid_rewrite elem_of_cons.
      destruct (is_class n) eqn:Hcls; simpl.
      + rewrite elem_of_union, elem_of_singleton. split.
        * intros [[?| ->]|(m & Hm & Hx)]; [by left| |by right; eauto].
          right. exists n. split; [by left|].
          unfold expand_node. rewrite Hcls. by apply elem_of_singleton.
        * intros [?|(m & [->|Hm] & Hx)]; [by left; left| |by right; eauto].
          unfold expand_node in Hx. rewrite Hcls in Hx.
          apply elem_of_singleton in Hx. left. by right.
      + destruct (Taxonomy.find_class self n) as [found|] eqn:Hfound.
        * rewrite foldl_add_elem_of, elem_of_set_iter. split.
          -- intros [[?|Hx]|(m & Hm & Hx)]; [by left| |by right; eauto].
             right. exists n. split; [by left|].
             unfold expand_node. by rewrite Hcls, Hfound.
          -- intros [?|(m & [->|Hm] & Hx)];
               [by left; left| |by right; eauto].
             unfold expand_node in Hx. rewrite Hcls, Hfound in Hx.
             left. by right.
        * split.
          -- intros [?|(m & Hm & Hx)]; [by left|by right; eauto].
          -- intros [?|(m & [->|Hm] & Hx)]; [by left| |by right; eauto].
             unfold expand_node in Hx. rewrite Hcls, Hfound in Hx.
             by apply not_elem_of_empty in Hx. }
  rewrite Hgen. setoid_rewrite elem_of_set_iter.
  split; [|by right]. intros [Hx|?]; [|done].
  by apply not_elem_of_empty in Hx.
Qed.

(** A compound of one word is the lookup of that word, with [set()]
    standing in for a missing key. *)
Lemma idx_map_compound_singleton lemma :
  idx_map_compound self [lemma] = Ok (default ∅ (idx_map_part self lemma)).
Proof.
  unfold idx_map_compound. simpl.
  destruct (idx_map_part self lemma) as [s|]; simpl; [|done].
  f_equal. apply (idemp_L (∩)).
Qed.

Lemma mapM_Ok {A B : Type} (f : A → result B) (g : A → B) (l : list A) :
  (∀ a, f a = Ok (g a)) → mapM f l = Ok (g <$> l).
Proof.
  intros Hf. induction l as [|a l IH]; [done|].
  simpl. rewrite Hf. simpl. rewrite IH. done.
Qed.

Lemma filter_nonempty_lookups (lemmas : list string) :
  filter (λ s : gset string, 0 < size s)%nat
    ((λ lemma, default ∅ (idx_map_part self lemma)) <$> lemmas) =
  found_sets self lemmas.
Proof.
  unfold found_sets. induction lemmas as [|lemma lemmas IH]; [done|].
  rewrite fmap_cons, filter_cons, IH. cbn [omap list_omap].
  destruct (idx_map_part self lemma) as [s|]; cbn [default from_option id].
  - rewrite filter_cons.
    destruct (decide (0 < size s)%nat) as [Hs|Hs];
      destruct (decide (s ≠ ∅)) as [Hne|He]; try done.
    + apply dec_stable in He. subst. rewrite size_empty in Hs. lia.
    + exfalso. apply Hne, leibniz_equiv, size_empty_iff. lia.
  - destruct (decide (0 < size (∅ : gset string))%nat) as [Hs|Hs]; [|done].
    rewrite size_empty in Hs. lia.
Qed.

(** [find_compound] as one expression over the surviving sets. *)
Lemma find_compound_unfold (lemmas : list string) :
  find_compound self lemmas =
  Ok (match expand_instances self <$> found_sets self lemmas with
      | [] => None
      | first :: rest => Some (foldl (∩) first rest)
      end).
Proof.
  unfold find_compound. case_bool_decide as Hlen.
  { destruct lemmas; [done|]. simpl in Hlen. lia. }
  rewrite (mapM_Ok _ (λ lemma, default ∅ (idx_map_part self lemma)))
    by apply idx_map_compound_singleton.
  simpl. rewrite filter_nonempty_lookups.
  destruct (found_sets self lemmas) as [|first rest]; [done|].
  simpl. case_bool_decide as Hsize; [done|].
  do 2 f_equal. symmetry. apply leibniz_equiv, size_empty_iff. lia.
Qed.

Lemma elem_of_foldl_intersection (first : gset string) rest x :
  x ∈ foldl (∩) first rest ↔ ∀ s, s ∈ first :: rest → x ∈ s.
Proof.
  revert first. induction rest as [|s rest IH]; intros first; simpl.
  - split; [by intros ? ? ->%list_elem_of_singleton|].
    intros Hall. apply Hall. by left.
  - rewrite IH. split.
    + intros Hall.
      pose proof (Hall (first ∩ s) (list_elem_of_here _ _)) as Hfs.
      apply elem_of_intersection in Hfs as [Hf Hs].
      intros t [Heq|[Heq|Ht]%elem_of_cons]%elem_of_cons; subst; [done..|].
      apply Hall. by right.
    + intros Hall t [Heq|Ht]%elem_of_cons; subst.
      * apply elem_of_intersection. split; apply Hall; [by left|].
        right. by left.
      * apply Hall. right. by right.
Qed.

Lemma foldl_intersection_perm (l1 l2 : list (gset string)) :
  l1 ≡ₚ l2 →
  match l1 with [] => None | first :: rest => Some (foldl (∩) first rest) end
  = match l2 with [] => None | first :: rest => Some (foldl (∩) first rest)
    end.
Proof.
  intros Hperm. destruct l1 as [|f1 r1], l2 as [|f2 r2]; [done| | |].
  - by apply Permutation_nil_cons in Hperm.
  - symmetry in Hperm. by apply Permutation_nil_cons in Hperm.
  - f_equal. apply set_eq. intros x.
    rewrite !elem_of_foldl_intersection.
    split; intros Hall s Hs; apply Hall; [by rewrite Hperm|by rewrite <-Hperm].
Qed.

(** C2: every lemma is looked up on its own and the empty results are
    dropped; with nothing left the answer is [None], otherwise it is the
    set of the nodes that lie in the one-hop expansion of every remaining
    result set, which is the empty set when they share no node.  The
    expansion is spelled out on the tables: a node [x] lies in the
    expansion of a result set [e] when [x] is a class node of [e], or when
    [yago_taxn] has a row that gives [x] as a class of a node of [e] that
    is no class itself.  The remaining result sets are the sets, other
    than the empty one, that the store of the Part Index holds under a
    lemma of the list. *)
Theorem find_compound_strategy_a (lemmas : list string) :
  lemmas ≠ [] →
  (∀ e, e ∈ found_sets self lemmas ↔
        e ≠ ∅ ∧ ∃ lemma, lemma ∈ lemmas ∧ idx self !! lemma = Some e) ∧
  (found_sets self lemmas = [] → find_compound self lemmas = Ok None) ∧
  (found_sets self lemmas ≠ [] →
   ∃ s, find_compound self lemmas = Ok (Some s) ∧
        (∀ x, x ∈ s ↔
              ∀ e, e ∈ found_sets self lemmas →
                   (x ∈ e ∧ is_class x = true) ∨
                   ∃ i, i ∈ e ∧ is_class i = false ∧
                        (i, x) ∈ yago_taxn self) ∧
        (∀ x, x ∈ s ↔
              ∀ e, e ∈ found_sets self lemmas →
                   x ∈ expand_instances self e)).
Proof.
  intros _.
  assert (Hrows : ∀ (e : gset string) x,
    x ∈ expand_instances self e ↔
    (x ∈ e ∧ is_class x = true) ∨
    ∃ i, i ∈ e ∧ is_class i = false ∧ (i, x) ∈ yago_taxn self).
  { intros e x. rewrite elem_of_expand_instances. unfold expand_node. split.
    - intros (n & Hn & Hx). destruct (is_class n) eqn:Hcls.
      + apply elem_of_singleton in Hx as ->. by left.
      + right. exists n. by rewrite <-elem_of_find_class_default.
    - intros [[Hx Hcls]|(i & Hi & Hcls & Hrow)].
      + exists x. rewrite Hcls. split; [done|]. by apply elem_of_singleton.
      + exists i. rewrite Hcls. by rewrite elem_of_find_class_default. }
  split.
  { intros e. unfold found_sets, idx_map_part.
    rewrite list_elem_of_filter, list_elem_of_omap. done. }
  rewrite find_compound_unfold.
  destruct (found_sets self lemmas) as [|first rest] eqn:Hfound.
  - split; [done|]. by intros [].
  - split; [done|]. intros _.
    exists (foldl (∩) (expand_instances self first)
              (expand_instances self <$> rest)).
    split; [done|].
    assert (Hexp : ∀ x,
      x ∈ foldl (∩) (expand_instances self first)
            (expand_instances self <$> rest) ↔
      ∀ e, e ∈ first :: rest → x ∈ expand_instances self e).
    { intros x. rewrite elem_of_foldl_intersection.
      change (expand_instances self first :: (expand_instances self <$> rest))
        with (expand_instances self <$> first :: rest).
      split.
      - intros Hall e He. apply Hall, list_elem_of_fmap. eauto.
      - intros Hall s (e & -> & He)%list_elem_of_fmap. by apply Hall. }
    split; [|exact Hexp].
    intros x. rewrite Hexp. split.
    + intros Hall e He. by apply Hrows, Hall.
    + intros Hall e He. by apply Hrows, Hall.
Qed.

(** C9: permuting the lemmas does not change what [find_compound]
    returns. *)
Theorem find_compound_permutation (lemmas lemmas' : list string) :
  lemmas ≡ₚ lemmas' →
  find_compound self lemmas = find_compound self lemmas'.
Proof.
  intros Hperm. rewrite !find_compound_unfold. f_equal.
  apply foldl_intersection_perm. unfold found_sets. by rewrite Hperm.
Qed.

(** The expansion leaves a set of classes as it is. *)
Lemma expand_instances_classes (s : gset string) :
  (∀ n, n ∈ s → is_class n = true) → expand_instances self s = s.
Proof.
  intros Hcls. apply set_eq. intros x. rewrite elem_of_expand_instances.
  unfold expand_node. split.
  - intros (n & Hn & Hx). rewrite (Hcls n Hn) in Hx.
    by apply elem_of_singleton in Hx as ->.
  - intros Hx. exists x. split; [done|]. rewrite (Hcls x Hx).
    by apply elem_of_singleton.
Qed.

(** C6 (amended): for a word of the Part Index, [find_compound] on the
    one-word compound returns the one-hop class expansion of the set the
    direct lookup returns, which is that set itself when all its nodes
    are classes. *)
Theorem find_compound_single_word (w : string) (s : gset string) :
  idx_map_part self w = Some s → s ≠ ∅ →
  find_compound self [w] = Ok (Some (expand_instances self s)) ∧
  ((∀ n, n ∈ s → is_class n = true) →
   find_compound self [w] = Ok (idx_map_part self w)).
Proof.
  intros Hw Hs.
  assert (Hrun : find_compound self [w] = Ok (Some (expand_instances self s))).
  { rewrite find_compound_unfold. unfold found_sets. simpl. rewrite Hw.
    rewrite filter_cons. by destruct (decide (s ≠ ∅)). }
  split; [done|]. intros Hcls.
  by rewrite Hrun, Hw, expand_instances_classes.
Qed.

End strategy_a.

(** C2 on a dictionary where the expansion does work: "tim" finds the
    instance [<Tim_Story>], "story" finds that instance and a class; the
    instance is replaced by its class [<wordnet_director_1>], which is the
    one node the two expansions share. *)
Lemma find_compound_strategy_a_witness :
  ∃ s, Resolver.find_compound (H:=elements_iter) story_teller
         ["tim"; "story"] = Ok (Some s) ∧
       (∀ x, x ∈ s ↔
             ∀ e, e ∈ found_sets story_teller ["tim"; "story"] →
                  (x ∈ e ∧ Resolver.is_class x = true) ∨
                  ∃ i, i ∈ e ∧ Resolver.is_class i = false ∧
                       (i, x) ∈ yago_taxn story_teller) ∧
       (∀ x, x ∈ s ↔
             ∀ e, e ∈ found_sets story_teller ["tim"; "story"] →
                  x ∈ Resolver.expand_instances (H:=elements_iter)
                        story_teller e).
Proof.
  destruct (find_compound_strategy_a (H:=elements_iter) story_teller
              ["tim"; "story"]) as (_ & _ & Hsome); [done|].
  apply Hsome. by_evaluation.
Defined.

(** The run behind it, and the scenario of the specification: on
    [dog_house] both lemmas match, their sets share no node, and the
    answer is the empty set, not [None]. *)
Lemma story_teller_runs :
  found_sets story_teller ["tim"; "story"] =
    [ {[ "<Tim_Story>" ]}; {[ "<Tim_Story>"; "<wordnet_story_1>" ]} ] ∧
  Resolver.find_compound (H:=elements_iter) story_teller ["tim"; "story"]
    = Ok (Some {[ "<wordnet_director_1>" ]}) ∧
  Resolver.find_compound (H:=elements_iter) dog_house ["dog"; "house"]
    = Ok (Some ∅).
Proof. split; [|split]; by_evaluation. Qed.

Lemma find_compound_permutation_witness :
  Resolver.find_compound (H:=elements_iter) dog_house ["dog"; "house"] =
  Resolver.find_compound (H:=elements_iter) dog_house ["house"; "dog"].
Proof.
  apply (find_compound_permutation (H:=elements_iter) dog_house).
  apply perm_swap.
Defined.

(** C6, as stated, fails: the word "story" is in the built Part Index with
    an instance node that has no class, so the direct lookup returns that
    node while [find_compound] returns the empty set. *)
Lemma find_compound_single_word_differs :
  Resolver.idx_map_part tim_story "story" = Some {[ "<Tim_Story>" ]} ∧
  Resolver.find_compound (H:=elements_iter) tim_story ["story"]
    = Ok (Some ∅) ∧
  Resolver.find_compound (H:=elements_iter) tim_story ["story"]
    ≠ Ok (Resolver.idx_map_part tim_story "story").
Proof. split; [|split]; by_evaluation. Qed.

Lemma find_compound_single_word_witness :
  Resolver.find_compound (H:=elements_iter) dog_house ["house"] =
    Ok (Some (Resolver.expand_instances (H:=elements_iter) dog_house
                {[ "<wordnet_house_1>" ]})) ∧
  Resolver.find_compound (H:=elements_iter) dog_house ["house"] =
    Ok (Resolver.idx_map_part dog_house "house").
Proof.
  destruct (find_compound_single_word (H:=elements_iter) dog_house "house"
              {[ "<wordnet_house_1>" ]}) as [Hrun Hcls];
    [by_evaluation|by_evaluation|].
  split; [exact Hrun|]. apply Hcls.
  intros n ->%elem_of_singleton. reflexivity.
Defined.


(** * Properties of Strategy B *)

Section strategy_b.
Import Resolver.
Context `{SetIter}.
Variable self : YagoDict.

Lemma elem_of_intersect_all (sets : list (option (gset string))) :
  ∀ (acc : gset string) x,
    x ∈ intersect_all acc sets ↔
    x ∈ acc ∧ ∀ o, o ∈ sets → ∃ t, o = Some t ∧ x ∈ t.
Proof.
  induction sets as [|[ns|] sets IH]; intros acc x; simpl.
  - split; [|tauto]. intros Hx. split; [done|].
    by intros o Ho%elem_of_nil.
  - rewrite IH, elem_of_intersection. split.
    + intros [[Hacc Hns] Hall]. split; [done|].
      intros o [->|Ho]%elem_of_cons; eauto.
    + intros [Hacc Hall]. split; [split; [done|]|].
      * destruct (Hall (Some ns)) as (t & Heq & Ht); [by left|]. by simplify_eq.
      * intros o Ho. apply Hall. by right.
  - split; [by intros ?%not_elem_of_empty|].
    intros [_ Hall]. destruct (Hall None) as (t & Heq & _); [by left|done].
Qed.

(** On a compound that is not empty [idx_map_compound] returns. *)
Lemma idx_map_compound_cons p ps :
  idx_map_compound self (p :: ps) = Ok (compound_nodes self (p :: ps)).
Proof.
  unfold compound_nodes, idx_map_compound. simpl.
  by destruct (idx_map_part self p).
Qed.

Lemma elem_of_compound_nodes p ps x :
  x ∈ compound_nodes self (p :: ps) ↔
  ∀ q, q ∈ p :: ps → ∃ t, idx_map_part self q = Some t ∧ x ∈ t.
Proof.
  unfold compound_nodes, idx_map_compound. rewrite fmap_cons.
  destruct (idx_map_part self p) as [first|] eqn:Hp.
  - rewrite elem_of_intersect_all, <-Hp, <-fmap_cons. split.
    + intros [_ Hall] q Hq. apply Hall, list_elem_of_fmap. eauto.
    + intros Hall. split.
      * destruct (Hall p) as (t & Ht & Hx); [by left|]. congruence.
      * intros o (q & -> & Hq)%list_elem_of_fmap. by apply Hall.
  - split; [by intros ?%not_elem_of_empty|].
    intros Hall. destruct (Hall p) as (t & Ht & _); [by left|]. congruence.
Qed.

Lemma combinations_length {A : Type} (l : list A) :
  ∀ r c, c ∈ combinations l r → length c = r.
Proof.
  induction l as [|x l IH]; intros [|r] c Hc; simpl in Hc.
  - by apply list_elem_of_singleton in Hc as ->.
  - by apply elem_of_nil in Hc.
  - by apply list_elem_of_singleton in Hc as ->.
  - apply elem_of_app in Hc as [(c' & -> & Hc')%list_elem_of_fmap|Hc].
    + simpl. f_equal. by apply IH.
    + by apply IH.
Qed.

Lemma for_combs_fold min_threshold (combs : list (list string)) :
  (∀ c, c ∈ combs → c ≠ []) →
  ∀ best, for_combs self min_threshold combs best =
          Ok (foldl (consider min_threshold) best
                (compound_nodes self <$> combs)).
Proof.
  induction combs as [|c combs IH]; intros Hne best; [done|].
  destruct c as [|p ps]; [by destruct (Hne [] (list_elem_of_here _ _))|].
  cbn [for_combs]. rewrite idx_map_compound_cons. cbn [mbind result_bind].
  rewrite IH; [done|]. intros c Hc. apply Hne. by right.
Qed.

Lemma for_comb_lens_fold (lemmas : list string) min_threshold
    (comb_lens : list Z) :
  (∀ n, n ∈ comb_lens → 1 ≤ n)%Z →
  ∀ best, for_comb_lens self lemmas min_threshold comb_lens best =
          Ok (foldl (consider min_threshold) best
                (compound_nodes self <$>
                 (comb_lens ≫= λ n, combinations lemmas (Z.to_nat n)))).
Proof.
  induction comb_lens as [|n lens IH]; intros Hpos best; [done|].
  assert (1 ≤ n)%Z as Hn by (apply Hpos; by left).
  cbn [for_comb_lens]. unfold itertools_combinations.
  rewrite bool_decide_eq_false_2 by lia. cbn [mbind result_bind].
  rewrite for_combs_fold.
  - cbn [mbind result_bind]. rewrite IH by (intros m Hm; apply Hpos; by right).
    by rewrite bind_cons, fmap_app, foldl_app.
  - intros c Hc%combinations_length ->. simpl in Hc. lia.
Qed.

Lemma consider_inv min_threshold sets best s :
  search_inv min_threshold sets best →
  search_inv min_threshold (sets ++ [s]) (consider min_threshold best s).
Proof.
  destruct best as [[b|] bl]; unfold search_inv, consider; simpl;
    fold (len s).
  - intros (-> & Hb & i & Hi & Hmin & Hlast).
    case_bool_decide as Hacc; simpl.
    + split; [done|]. split; [lia|]. exists (length sets).
      split; [by apply list_lookup_middle|]. split.
      * intros j t Hj Ht.
        apply lookup_snoc_Some in Hj as [[_ Hj]|[_ <-]]; [|lia].
        specialize (Hmin j t Hj Ht). lia.
      * intros j t Hj%lookup_lt_Some _ _. rewrite length_app in Hj.
        simpl in Hj. lia.
    + split; [done|]. split; [done|]. exists i.
      split; [by apply lookup_app_l_Some|]. split.
      * intros j t Hj Ht.
        apply lookup_snoc_Some in Hj as [[_ Hj]|[_ <-]]; [eauto|lia].
      * intros j t Hj Ht Heq.
        apply lookup_snoc_Some in Hj as [[_ Hj]|[_ <-]]; [eauto|lia].
  - intros (-> & Hnone). case_bool_decide as Hacc; simpl.
    + split; [done|]. split; [lia|]. exists (length sets).
      split; [by apply list_lookup_middle|]. split.
      * intros j t Hj Ht.
        apply lookup_snoc_Some in Hj as [[_ Hj]|[_ <-]]; [|lia].
        apply list_elem_of_lookup_2, Hnone in Hj. lia.
      * intros j t Hj%lookup_lt_Some _ _. rewrite length_app in Hj.
        simpl in Hj. lia.
    + split; [done|]. intros t [Ht | ->%list_elem_of_singleton]%elem_of_app.
      * by apply Hnone.
      * lia.
Qed.

Lemma search_fold_inv min_threshold (sets : list (gset string)) :
  search_inv min_threshold sets
    (foldl (consider min_threshold) (None, BEST_LEN) sets).
Proof.
  induction sets as [|s sets IH] using rev_ind.
  - split; [done|]. by intros s Hs%elem_of_nil.
  - rewrite foldl_snoc. by apply consider_inv.
Qed.

Lemma xrange_elem start stop n :
  n ∈ xrange start stop → (start ≤ n < stop)%Z.
Proof. unfold xrange. rewrite elem_of_seqZ. lia. Qed.

(** With [init_len] at least 1 no combination is empty and the two
    loops are one left-to-right pass over the candidate sets. *)
Lemma find_compound2_run (lemmas : list string)
    (min_threshold init_len max_len : Z) (prefer_classes : bool) :
  (1 ≤ init_len)%Z →
  find_compound2 self lemmas min_threshold init_len max_len prefer_classes =
  match (foldl (consider min_threshold) (None, BEST_LEN)
           (candidate_sets self lemmas init_len max_len)).1 with
  | Some best_nodes =>
    if prefer_classes then v ← prefer best_nodes; Ok (Some v)
    else Ok (Some (PySet best_nodes))
  | None => Ok None
  end.
Proof.
  intros Hinit. unfold find_compound2, candidate_sets, enumerated.
  case_bool_decide as Hlen.
  - destruct lemmas; [|done]. simpl. unfold xrange.
    rewrite seqZ_nil by lia. done.
  - rewrite for_comb_lens_fold; [done|].
    intros n Hn%xrange_elem. lia.
Qed.

(** With [init_len] below 1 the first pass of the outer loop, if there
    is one, raises. *)
Lemma find_compound2_first_pass_raises (lemmas : list string)
    (min_threshold init_len max_len : Z) (prefer_classes : bool) :
  lemmas ≠ [] → (init_len ≤ 0)%Z → (init_len ≤ max_len)%Z →
  find_compound2 self lemmas min_threshold init_len max_len prefer_classes =
  Raise (if bool_decide (init_len < 0)%Z then ValueError else IndexError).
Proof.
  intros Hne Hinit Hmax. unfold find_compound2.
  rewrite bool_decide_eq_false_2 by (by destruct lemmas).
  unfold xrange. rewrite seqZ_cons by lia.
  cbn [for_comb_lens]. unfold itertools_combinations.
  case_bool_decide as Hneg; [done|].
  assert (init_len = 0)%Z as -> by lia.
  change (Z.to_nat 0) with 0%nat.
  assert (combinations lemmas 0 = [[]]) as -> by (by destruct lemmas).
  done.
Qed.

Lemma find_compound2_no_pass (lemmas : list string)
    (min_threshold init_len max_len : Z) (prefer_classes : bool) :
  (max_len < init_len)%Z →
  find_compound2 self lemmas min_threshold init_len max_len prefer_classes =
  Ok None ∧
  candidate_sets self lemmas init_len max_len = [].
Proof.
  intros Hmax. unfold find_compound2, candidate_sets, enumerated, xrange.
  rewrite seqZ_nil by lia. split; [|done]. by case_bool_decide.
Qed.

Lemma existsb_is_class (b : gset string) :
  existsb is_class (set_iter b) = true ↔ ∃ n, n ∈ b ∧ is_class n = true.
Proof.
  rewrite existsb_exists. setoid_rewrite <-list_elem_of_In.
  by setoid_rewrite elem_of_set_iter.
Qed.

(** [min] returns an element with the least key. *)
Lemma py_min_least (key : string → nat) (rest : list string) : ∀ x,
  let m := foldl (λ best y, if (key y <? key best)%nat then y else best)
                 x rest in
  m ∈ x :: rest ∧ ∀ y, y ∈ x :: rest → (key m ≤ key y)%nat.
Proof.
  induction rest as [|z rest IH]; intros x; simpl.
  - split; [by left|]. by intros y ->%list_elem_of_singleton.
  - destruct (IH (if (key z <? key x)%nat then z else x)) as [Hin Hle].
    assert (Hfirst : (key (if (key z <? key x)%nat then z else x) ≤ key x ∧
                      key (if (key z <? key x)%nat then z else x) ≤ key z)%nat).
    { destruct (key z <? key x)%nat eqn:Hlt.
      - apply Nat.ltb_lt in Hlt. lia.
      - apply Nat.ltb_ge in Hlt. lia. }
    pose proof (Hle _ (list_elem_of_here _ _)) as Hm.
    split.
    + apply elem_of_cons in Hin as [Heq|Hin].
      * rewrite Heq. destruct (key z <? key x)%nat; [right|]; by left.
      * right. by right.
    + intros y [Heq|[Heq|Hy]%elem_of_cons]%elem_of_cons; subst.
      * lia.
      * lia.
      * apply Hle. by right.
Qed.

(** The [prefer_classes] branch on a best set that has a node. *)
Lemma prefer_nonempty (best : gset string) :
  best ≠ ∅ →
  ∃ l, prefer best = Ok (PyList l) ∧
       (∀ x, x ∈ l → x ∈ best) ∧ (0 < length l ≤ size best)%nat ∧
       ((∃ n, n ∈ best ∧ is_class n = true) →
        l = filter (λ node, is_class node) (set_iter best)) ∧
       ((∀ n, n ∈ best → is_class n = false) →
        ∃ m, l = [m] ∧ m ∈ best ∧
             ∀ n, n ∈ best → (segments m ≤ segments n)%nat).
Proof.
  intros Hne. unfold prefer.
  assert (Hsize : length (set_iter best) = size best).
  { by rewrite (set_iter_perm best). }
  destruct (existsb is_class (set_iter best)) eqn:Hex.
  - apply existsb_is_class in Hex as Hcls. eexists. split; [done|].
    split; [|split; [|split; [done|]]].
    + intros x [_ Hx]%list_elem_of_filter. by apply elem_of_set_iter.
    + split; [|rewrite <-Hsize; apply length_filter].
      destruct Hcls as (n & Hn & Hc).
      assert (n ∈ filter (λ node, is_class node) (set_iter best)) as Hin.
      { apply list_elem_of_filter. split; [by rewrite Hc|].
        by apply elem_of_set_iter. }
      destruct (filter _ _); [by apply elem_of_nil in Hin|simpl; lia].
    + intros Hall. destruct Hcls as (n & Hn & Hc).
      rewrite (Hall n Hn) in Hc. done.
  - destruct (set_iter best) as [|x rest] eqn:Hiter.
    { exfalso. apply Hne, leibniz_equiv, size_empty_iff.
      by rewrite <-Hsize. }
    destruct (py_min_least segments rest x) as [Hin Hle].
    cbn [py_min mbind result_bind]. eexists. split; [done|].
    rewrite <-Hiter in Hin, Hle.
    split; [|split; [|split]].
    + intros y ->%list_elem_of_singleton. by apply elem_of_set_iter.
    + simpl. rewrite <-Hsize. simpl. lia.
    + intros Hcls%existsb_is_class. rewrite Hiter in Hcls. congruence.
    + intros _. eexists. split; [done|]. split.
      * by apply elem_of_set_iter.
      * intros n Hn. by apply Hle, elem_of_set_iter.
Qed.

(** With [init_len] at least 1 the call returns, unless [prefer_classes]
    meets an empty best set, which a threshold of at least 1 rules out. *)
Lemma find_compound2_returns (lemmas : list string)
    (min_threshold init_len max_len : Z) (prefer_classes : bool) :
  (1 ≤ init_len)%Z → prefer_classes = false ∨ (1 ≤ min_threshold)%Z →
  ∃ r, find_compound2 self lemmas min_threshold init_len max_len
         prefer_classes = Ok r.
Proof.
  intros Hinit Hsafe. rewrite find_compound2_run by done.
  pose proof (search_fold_inv min_threshold
                (candidate_sets self lemmas init_len max_len)) as Hinv.
  unfold search_inv in Hinv.
  destruct (foldl (consider min_threshold) (None, BEST_LEN)
              (candidate_sets self lemmas init_len max_len)).1 as [b|];
    [|by eexists].
  destruct prefer_classes; [|by eexists].
  destruct Hsafe as [|Hmin]; [done|].
  destruct Hinv as (_ & Hb & _).
  destruct (prefer_nonempty b) as (l & -> & _); [|by eexists].
  intros ->. unfold len in Hb. rewrite size_empty in Hb. lia.
Qed.

(** C10: on a compound that is not empty [idx_map_compound] returns the
    nodes common to the Part Index sets of all its parts, hence the
    empty set when a part is missing; on the empty compound it raises
    [IndexError], and [find_compound2] gets there when [init_len] is 0. *)
Theorem idx_map_compound_domain :
  (∀ p ps, ∃ s,
     idx_map_compound self (p :: ps) = Ok s ∧
     (∀ x, x ∈ s ↔
           ∀ q, q ∈ p :: ps → ∃ t, idx_map_part self q = Some t ∧ x ∈ t) ∧
     (∀ q, q ∈ p :: ps → idx_map_part self q = None → s = ∅)) ∧
  idx_map_compound self [] = Raise IndexError ∧
  (∀ lemmas min_threshold max_len prefer_classes,
     lemmas ≠ [] → (0 ≤ max_len)%Z →
     find_compound2 self lemmas min_threshold 0 max_len prefer_classes =
     Raise IndexError).
Proof.
  split; [|split; [done|]].
  - intros p ps. exists (compound_nodes self (p :: ps)).
    split; [apply idx_map_compound_cons|].
    split; [apply elem_of_compound_nodes|].
    intros q Hq Hnone. apply set_eq. intros x.
    rewrite elem_of_compound_nodes. split; [|by intros ?%not_elem_of_empty].
    intros Hall. destruct (Hall q Hq) as (t & Ht & _). congruence.
  - intros lemmas mt max_len pc Hne Hmax.
    by rewrite find_compound2_first_pass_raises.
Qed.

(** C3 (amended): with [init_len] at least 1 the search returns; the set
    it keeps has the least size among the candidate sets of size at least
    [min_threshold], and of the candidates of that size it is the one
    enumerated last. Nothing is kept exactly when no candidate has a
    size between [min_threshold] and the initial [best_len]. *)
Theorem find_compound2_keeps_last_minimal (lemmas : list string)
    (min_threshold init_len max_len : Z) :
  (1 ≤ init_len)%Z →
  let sets := candidate_sets self lemmas init_len max_len in
  (∃ b i,
     find_compound2 self lemmas min_threshold init_len max_len false =
       Ok (Some (PySet b)) ∧
     sets !! i = Some b ∧ (min_threshold ≤ len b)%Z ∧
     (∀ j s, sets !! j = Some s → (min_threshold ≤ len s)%Z →
             (len b ≤ len s)%Z) ∧
     (∀ j s, sets !! j = Some s → (min_threshold ≤ len s)%Z →
             len s = len b → (j ≤ i)%nat)) ∨
  (find_compound2 self lemmas min_threshold init_len max_len false =
     Ok None ∧
   ∀ s, s ∈ sets → ¬ (min_threshold ≤ len s ≤ BEST_LEN)%Z).
Proof.
  intros Hinit sets. rewrite find_compound2_run by done. fold sets.
  pose proof (search_fold_inv min_threshold sets) as Hinv.
  unfold search_inv in Hinv.
  destruct (foldl (consider min_threshold) (None, BEST_LEN) sets).1
    as [b|].
  - left. destruct Hinv as (_ & Hb & i & Hi & Hmin & Hlast).
    exists b, i. repeat split; [done|lia|done..].
  - right. by destruct Hinv.
Qed.

(** C4 (amended): what [find_compound2] returns comes from a candidate
    set of size at least [min_threshold]: that set itself when
    [prefer_classes] is unset; otherwise a list taken from it, which can
    be shorter than [min_threshold]: the class nodes of the set, in its
    iteration order, when it has one, and else a single node of it, one
    with the fewest segments. When no candidate reaches [min_threshold]
    the answer is [None]. *)
Theorem find_compound2_threshold (lemmas : list string)
    (min_threshold init_len max_len : Z) (prefer_classes : bool) :
  let sets := candidate_sets self lemmas init_len max_len in
  (∀ v, find_compound2 self lemmas min_threshold init_len max_len
          prefer_classes = Ok (Some v) →
        ∃ b, b ∈ sets ∧ (min_threshold ≤ len b)%Z ∧
             (prefer_classes = false → v = PySet b) ∧
             (prefer_classes = true →
              ∃ l, v = PyList l ∧ (∀ x, x ∈ l → x ∈ b) ∧
                   (length l ≤ size b)%nat ∧
                   (((∃ n, n ∈ b ∧ is_class n = true) ∧
                     l = filter (λ node, is_class node) (set_iter b) ∧
                     ∀ x, x ∈ l ↔ x ∈ b ∧ is_class x = true) ∨
                    ((∀ n, n ∈ b → is_class n = false) ∧
                     ∃ m, l = [m] ∧ m ∈ b ∧
                          ∀ n, n ∈ b → (segments m ≤ segments n)%nat)))) ∧
  ((1 ≤ init_len)%Z →
   (∀ s, s ∈ sets → (len s < min_threshold)%Z) →
   find_compound2 self lemmas min_threshold init_len max_len
     prefer_classes = Ok None).
Proof.
  intros sets. split.
  - intros v Hrun.
    destruct (decide (1 ≤ init_len)%Z) as [Hinit|Hinit].
    + rewrite find_compound2_run in Hrun by done. fold sets in Hrun.
      pose proof (search_fold_inv min_threshold sets) as Hinv.
      unfold search_inv in Hinv.
      destruct (foldl (consider min_threshold) (None, BEST_LEN) sets).1
        as [b|]; [|done].
      destruct Hinv as (_ & Hb & i & Hi & _).
      exists b. split; [by eapply list_elem_of_lookup_2|].
      split; [lia|]. destruct prefer_classes.
      * split; [done|]. intros _.
        destruct (decide (b = ∅)) as [->|Hne].
        { unfold prefer in Hrun.
          assert (set_iter (∅ : gset string) = []) as Hnil.
          { apply Permutation_nil_r. rewrite (set_iter_perm ∅).
            by rewrite elements_empty. }
          rewrite Hnil in Hrun. done. }
        destruct (prefer_nonempty b Hne)
          as (l & Hl & Hsub & Hlen & Hclasses & Hinstance).
        rewrite Hl in Hrun. simplify_eq/=. exists l.
        split; [done|]. split; [done|]. split; [lia|].
        destruct (existsb is_class (set_iter b)) eqn:Hex.
        -- apply existsb_is_class in Hex. left. split; [done|].
           rewrite (Hclasses Hex). split; [done|]. intros x.
           rewrite list_elem_of_filter, elem_of_set_iter.
           destruct (is_class x); naive_solver.
        -- right.
           assert (Hnone : ∀ n, n ∈ b → is_class n = false).
           { intros n Hn. destruct (is_class n) eqn:Hcls; [|done].
             assert (existsb is_class (set_iter b) = true) as Hyes
               by (apply existsb_is_class; eauto).
             congruence. }
           split; [done|]. by apply Hinstance.
      * split; [|done]. intros _. by simplify_eq.
    + destruct (decide (max_len < init_len)%Z) as [Hmax|Hmax].
      * destruct (find_compound2_no_pass lemmas min_threshold init_len
                    max_len prefer_classes Hmax) as [Hnone _].
        rewrite Hnone in Hrun. done.
      * destruct lemmas as [|lemma lemmas]; [done|].
        rewrite find_compound2_first_pass_raises in Hrun by (done || lia).
        done.
  - intros Hinit Hbelow. rewrite find_compound2_run by done. fold sets.
    pose proof (search_fold_inv min_threshold sets) as Hinv.
    unfold search_inv in Hinv.
    destruct (foldl (consider min_threshold) (None, BEST_LEN) sets).1
      as [b|]; [|done].
    destruct Hinv as (_ & Hb & i & Hi & _).
    apply list_elem_of_lookup_2, Hbelow in Hi. lia.
Qed.

(** C8 (amended): when the search has kept a best set that is not empty
    and [prefer_classes] is set, the result is the list of the class
    nodes of the best set if it has any, and otherwise the one-element
    list of a node of the best set with the fewest segments between
    underscores. *)
Theorem find_compound2_prefer_classes (lemmas : list string)
    (min_threshold init_len max_len : Z) (best : gset string) :
  find_compound2 self lemmas min_threshold init_len max_len false =
    Ok (Some (PySet best)) →
  best ≠ ∅ →
  ∃ l, find_compound2 self lemmas min_threshold init_len max_len true =
         Ok (Some (PyList l)) ∧
       ((∃ n, n ∈ best ∧ is_class n = true) →
        l = filter (λ node, is_class node) (set_iter best) ∧
        ∀ x, x ∈ l ↔ x ∈ best ∧ is_class x = true) ∧
       ((∀ n, n ∈ best → is_class n = false) →
        ∃ m, l = [m] ∧ m ∈ best ∧
             ∀ n, n ∈ best → (segments m ≤ segments n)%nat).
Proof.
  intros Hrun Hne.
  assert (1 ≤ init_len)%Z as Hinit.
  { destruct (decide (1 ≤ init_len)%Z) as [|Hinit]; [done|]. exfalso.
    destruct (decide (max_len < init_len)%Z) as [Hmax|Hmax].
    - destruct (find_compound2_no_pass lemmas min_threshold init_len
                  max_len false Hmax) as [Hnone _].
      rewrite Hnone in Hrun. done.
    - destruct lemmas as [|lemma lemmas]; [done|].
      rewrite find_compound2_first_pass_raises in Hrun by (done || lia).
      done. }
  rewrite find_compound2_run in Hrun |- * by done.
  destruct (foldl (consider min_threshold) (None, BEST_LEN)
              (candidate_sets self lemmas init_len max_len)).1
    as [b|]; [|done].
  assert (b = best) as -> by (by simplify_eq).
  destruct (prefer_nonempty best Hne) as (l & Hl & _ & _ & Hcls & Hins).
  exists l. rewrite Hl. split; [done|]. split; [|done].
  intros Hex. specialize (Hcls Hex). split; [done|]. subst l.
  intros x. rewrite list_elem_of_filter, elem_of_set_iter.
  rewrite Is_true_true. tauto.
Qed.

End strategy_b.

Lemma idx_map_compound_domain_witness :
  Resolver.find_compound2 (H:=elements_iter) dog_house ["dog"; "house"]
    1 0 3 true = Raise IndexError.
Proof.
  apply (proj2 (proj2 (idx_map_compound_domain (H:=elements_iter) dog_house)));
    [done|lia].
Defined.

(** C3, as stated, fails on a tie: "alpha" and "beta" both have a set of
    size 1, the least size there is; "alpha" is enumerated first, and the
    set that is kept is the one of "beta". *)
Lemma find_compound2_tie_not_first :
  candidate_sets alpha_beta ["alpha"; "beta"] 1 3 =
    [ {[ "<wordnet_alpha_1>" ]}; {[ "<wordnet_beta_1>" ]}; ∅ ] ∧
  Resolver.find_compound2 (H:=elements_iter) alpha_beta ["alpha"; "beta"]
    1 1 3 false = Ok (Some (PySet {[ "<wordnet_beta_1>" ]})) ∧
  ({[ "<wordnet_beta_1>" ]} : gset string) ≠ {[ "<wordnet_alpha_1>" ]}.
Proof. split; [|split]; by_evaluation. Qed.

Lemma find_compound2_keeps_last_minimal_witness :
  let sets := candidate_sets alpha_beta ["alpha"; "beta"] 1 3 in
  (∃ b i,
     Resolver.find_compound2 (H:=elements_iter) alpha_beta ["alpha"; "beta"]
       1 1 3 false = Ok (Some (PySet b)) ∧
     sets !! i = Some b ∧ (1 ≤ len b)%Z ∧
     (∀ j s, sets !! j = Some s → (1 ≤ len s)%Z → (len b ≤ len s)%Z) ∧
     (∀ j s, sets !! j = Some s → (1 ≤ len s)%Z →
             len s = len b → (j ≤ i)%nat)) ∨
  (Resolver.find_compound2 (H:=elements_iter) alpha_beta ["alpha"; "beta"]
     1 1 3 false = Ok None ∧
   ∀ s, s ∈ sets → ¬ (1 ≤ len s ≤ Resolver.BEST_LEN)%Z).
Proof.
  apply (find_compound2_keeps_last_minimal (H:=elements_iter) alpha_beta
           ["alpha"; "beta"] 1 1 3).
  lia.
Defined.

(** C4, as stated, fails when [prefer_classes] is set: with a threshold of
    2 the set of "story" has two nodes and meets it, and the answer is the
    list of its one class node. *)
Lemma find_compound2_below_threshold :
  candidate_sets class_and_instance ["story"] 1 3 =
    [ {[ "<wordnet_story_1>"; "<Tim_Story>" ]} ] ∧
  Resolver.find_compound2 (H:=elements_iter) class_and_instance ["story"]
    2 1 3 true = Ok (Some (PyList ["<wordnet_story_1>"])) ∧
  (Z.of_nat (length (pyval_nodes (PyList ["<wordnet_story_1>"]))) < 2)%Z.
Proof. split; [|split]; by_evaluation. Qed.

(** With a threshold of 2 the answer is the list of the one class node of
    the two-node set of "story"; with a threshold of 3 it is [None]. *)
Lemma find_compound2_threshold_witness :
  (∃ b, b ∈ candidate_sets class_and_instance ["story"] 1 3 ∧
        (2 ≤ len b)%Z ∧
        ∃ l, PyList ["<wordnet_story_1>"] = PyList l ∧
             (∀ x, x ∈ l → x ∈ b) ∧ (length l ≤ size b)%nat ∧
             (((∃ n, n ∈ b ∧ Resolver.is_class n = true) ∧
               l = filter (λ node, Resolver.is_class node) (elements b) ∧
               ∀ x, x ∈ l ↔ x ∈ b ∧ Resolver.is_class x = true) ∨
              ((∀ n, n ∈ b → Resolver.is_class n = false) ∧
               ∃ m, l = [m] ∧ m ∈ b ∧
                    ∀ n, n ∈ b →
                         (Resolver.segments m ≤ Resolver.segments n)%nat))) ∧
  Resolver.find_compound2 (H:=elements_iter) class_and_instance ["story"]
    3 1 3 true = Ok None.
Proof.
  destruct (find_compound2_threshold (H:=elements_iter) class_and_instance
              ["story"] 2 1 3 true) as [Hsome _].
  destruct (find_compound2_threshold (H:=elements_iter) class_and_instance
              ["story"] 3 1 3 true) as [_ Hnone].
  split.
  - destruct (Hsome (PyList ["<wordnet_story_1>"])) as (b & Hb & Hlen & _ & Hl);
      [by_evaluation|].
    exists b. split; [done|]. split; [done|]. by apply Hl.
  - apply Hnone; [lia|].
    apply Forall_forall. by_evaluation.
Defined.

(** C8, as stated, fails on an empty best set: with a threshold of 0 the
    empty set of an unknown word is kept as the best set, it has no class
    node, and taking the minimum over it raises [ValueError]. *)
Lemma find_compound2_prefer_empty_best :
  Resolver.find_compound2 (H:=elements_iter) empty_dict ["x"] 0 1 3 false
    = Ok (Some (PySet ∅)) ∧
  Resolver.find_compound2 (H:=elements_iter) empty_dict ["x"] 0 1 3 true
    = Raise ValueError.
Proof. split; by_evaluation. Qed.

Lemma find_compound2_prefer_classes_witness :
  ∃ l, Resolver.find_compound2 (H:=elements_iter) class_and_instance
         ["story"] 1 1 3 true = Ok (Some (PyList l)) ∧
       l = ["<wordnet_story_1>"].
Proof.
  destruct (find_compound2_prefer_classes (H:=elements_iter)
              class_and_instance ["story"] 1 1 3
              {[ "<wordnet_story_1>"; "<Tim_Story>" ]})
    as (l & Hrun & Hcls & _); [by_evaluation|by_evaluation|].
  exists l. split; [done|].
  destruct Hcls as [-> _]; [|by_evaluation].
  exists "<wordnet_story_1>". split; [by_evaluation|done].
Defined.

(** The two scenarios of the specification for [prefer_classes]. *)
Example prefer_classes_scenarios :
  Resolver.find_compound2 (H:=elements_iter) class_and_instance ["story"]
    1 1 3 true = Ok (Some (PyList ["<wordnet_story_1>"])) ∧
  Resolver.find_compound2 (H:=elements_iter) two_instances ["story"]
    1 1 3 true = Ok (Some (PyList ["<Tim>"])).
Proof. split; by_evaluation. Qed.

(** * Properties of the index build *)

Section key_order.

Lemma string_compare_trans (s1 : string) : ∀ s2 s3,
  String.compare s1 s2 ≠ Gt → String.compare s2 s3 ≠ Gt →
  String.compare s1 s3 ≠ Gt.
Proof.
  induction s1 as [|c1 s1 IH]; intros [|c2 s2] [|c3 s3]; simpl; try done.
  unfold Ascii.compare.
  destruct (N.compare_spec (N_of_ascii c1) (N_of_ascii c2)) as [E12|L12|G12];
    destruct (N.compare_spec (N_of_ascii c2) (N_of_ascii c3)) as [E23|L23|G23];
    destruct (N.compare_spec (N_of_ascii c1) (N_of_ascii c3)) as [E13|L13|G13];
    try done; try lia.
  apply IH.
Qed.

Lemma string_leb_trans (s1 s2 s3 : string) :
  String.leb s1 s2 = true → String.leb s2 s3 = true → String.leb s1 s3 = true.
Proof.
  unfold String.leb. intros H12 H23.
  pose proof (string_compare_trans s1 s2 s3) as Htrans.
  destruct (String.compare s1 s2), (String.compare s2 s3),
    (String.compare s1 s3); try done; by destruct Htrans.
Qed.

#[local] Instance key_le_trans : Transitive Build.key_le.
Proof. intros r1 r2 r3. apply string_leb_trans. Qed.

#[local] Instance key_le_total : Total Build.key_le.
Proof. intros r1 r2. apply String.leb_total. Qed.

Lemma order_by_key_sorted (t : table) :
  StronglySorted Build.key_le (Build.order_by_key t).
Proof. apply StronglySorted_merge_sort; apply _. Qed.

Lemma order_by_key_perm (t : table) : Build.order_by_key t ≡ₚ t.
Proof. apply merge_sort_Permutation. Qed.

Lemma nodes_under_perm (t1 t2 : table) key :
  t1 ≡ₚ t2 → nodes_under t1 key = nodes_under t2 key.
Proof.
  intros Hperm. apply set_eq. intros x. unfold nodes_under.
  rewrite !elem_of_list_to_set, !elem_of_select_where. by rewrite Hperm.
Qed.

Lemma elem_of_nodes_under (t : table) key x :
  x ∈ nodes_under t key ↔ (key, x) ∈ t.
Proof.
  unfold nodes_under. by rewrite elem_of_list_to_set, elem_of_select_where.
Qed.

Lemma nodes_under_cons key' node (t : table) key :
  nodes_under ((key', node) :: t) key =
  if decide (key' = key) then {[node]} ∪ nodes_under t key
  else nodes_under t key.
Proof.
  apply set_eq. intros x. case_decide as Hk.
  - subst. rewrite elem_of_union, elem_of_singleton, !elem_of_nodes_under.
    rewrite elem_of_cons. split; [intros [[= ->]|?]|intros [->|?]]; auto.
  - rewrite !elem_of_nodes_under, elem_of_cons.
    split; [intros [[= -> ->]|?]|]; auto. done.
Qed.

End key_order.

Section grouping.
Variable emit : YagoDict → string → gset string → YagoDict.

Lemma size_pos_nonempty (s : gset string) : s ≠ ∅ → (0 < size s)%nat.
Proof.
  intros Hne. destruct (decide (size s = 0)%nat) as [Hz|]; [|lia].
  by apply size_empty_iff, leibniz_equiv in Hz.
Qed.

Lemma add_nonempty (s : gset string) node : s ∪ {[node]} ≠ ∅.
Proof.
  intros Hempty. assert (node ∈ s ∪ {[node]}) as Hin.
  { apply elem_of_union. right. by apply elem_of_singleton. }
  rewrite Hempty in Hin. by apply not_elem_of_empty in Hin.
Qed.

Lemma add_nonempty_l (s : gset string) node : {[node]} ∪ s ≠ ∅.
Proof. rewrite (comm_L (∪)). apply add_nonempty. Qed.

(** The loop emits the records of [runs], in that order. *)
Lemma runs_fold (rows : table) : ∀ cur self,
  cur.2 ≠ ∅ →
  Build.emit_group emit
    (foldl (Build.group_step emit) (Some cur, self) rows).1
    (foldl (Build.group_step emit) (Some cur, self) rows).2 =
  foldl (λ s g, emit s g.1 g.2) self (runs cur rows).
Proof.
  induction rows as [|[key node] rows IH]; intros [prev node_set] self Hne.
  - simpl in *. by rewrite bool_decide_eq_true_2 by by apply size_pos_nonempty.
  - cbn [foldl runs Build.group_step fst snd].
    case_bool_decide as Hkey.
    + rewrite IH by apply add_nonempty.
      cbn [foldl Build.emit_group fst snd].
      by rewrite bool_decide_eq_true_2 by by apply size_pos_nonempty.
    + rewrite IH by apply add_nonempty. done.
Qed.

Lemma group_rows_groups (rows : table) (self : YagoDict) :
  Build.group_rows emit rows self =
  foldl (λ s g, emit s g.1 g.2) self (groups rows).
Proof.
  unfold Build.group_rows.
  destruct rows as [|[key node] rows]; [done|].
  cbn [foldl groups Build.group_step].
  rewrite <-runs_fold by apply add_nonempty.
  by destruct (foldl _ _ rows).
Qed.

End grouping.

Section sorted_groups.

(** On rows sorted by key, every key is emitted once, with all its nodes. *)
Lemma put_all_runs_lookup (rows : table) : ∀ cur (db : gmap string (gset string)) L,
  StronglySorted Build.key_le rows →
  (∀ r, r ∈ rows → String.leb cur.1 r.1 = true) →
  put_all db (runs cur rows) !! L =
  if decide (L = cur.1) then Some (cur.2 ∪ nodes_under rows L)
  else if decide (nodes_under rows L = ∅) then db !! L
  else Some (nodes_under rows L).
Proof.
  induction rows as [|[key node] rows IH]; intros [prev node_set] db L Hs Hle.
  - cbn [runs put_all foldl fst snd].
    change (nodes_under [] L) with (∅ : gset string).
    rewrite lookup_insert. repeat case_decide; try done.
    by rewrite (right_id_L ∅ (∪)).
  - apply StronglySorted_inv in Hs as [Hs Hall].
    cbn [runs fst snd]. rewrite nodes_under_cons.
    case_bool_decide as Hkey.
    + (* a new run starts; [prev] does not come back *)
      assert (Hgone : nodes_under rows prev = ∅).
      { apply set_eq. intros x. rewrite elem_of_nodes_under.
        split; [|by intros ?%not_elem_of_empty]. intros Hin. exfalso.
        apply Hkey. apply String.leb_antisym.
        - rewrite Forall_forall in Hall. apply (Hall _ Hin).
        - apply (Hle (key, node)). by left. }
      change (put_all db ((prev, node_set) :: runs (key, ∅ ∪ {[node]}) rows))
        with (put_all (<[prev := node_set]> db) (runs (key, ∅ ∪ {[node]}) rows)).
      rewrite IH; [|done|].
      2:{ intros r Hr. rewrite Forall_forall in Hall. apply (Hall _ Hr). }
      cbn [fst snd]. rewrite lookup_insert.
      repeat case_decide; simplify_eq; try done.
      all: try (by exfalso; eapply add_nonempty_l).
      all: try (f_equal; set_solver).
    + subst key.
      rewrite IH; [|done|].
      2:{ intros r Hr. apply Hle. by right. }
      cbn [fst snd].
      repeat case_decide; simplify_eq; try done.
      all: try (by exfalso; eapply add_nonempty_l).
      all: try (f_equal; set_solver).
Qed.

Lemma put_all_groups_lookup (rows : table) (db : gmap string (gset string)) L :
  StronglySorted Build.key_le rows →
  put_all db (groups rows) !! L =
  if decide (nodes_under rows L = ∅) then db !! L
  else Some (nodes_under rows L).
Proof.
  intros Hs. destruct rows as [|[key node] rows]; [done|].
  apply StronglySorted_inv in Hs as [Hs Hall].
  cbn [groups]. rewrite put_all_runs_lookup; [|done|].
  2:{ intros r Hr. rewrite Forall_forall in Hall. apply (Hall _ Hr). }
  cbn [fst snd]. rewrite nodes_under_cons.
  repeat case_decide; simplify_eq; try done.
  all: try (by exfalso; eapply add_nonempty_l).
  all: try (f_equal; set_solver).
Qed.

End sorted_groups.

Section stores.
Import Build.
Variable findall : string → list string.
Variable flush_every : Z.
Variable write_clears : bool.

Lemma Write_cons (db : gmap string (gset string)) key value batch :
  Write db ((key, value) :: batch) = <[key := value]> (Write db batch).
Proof. reflexivity. Qed.

Lemma Write_union (db : gmap string (gset string)) batch :
  Write db batch = list_to_map batch ∪ db.
Proof.
  induction batch as [|[key value] batch IH].
  - by rewrite list_to_map_nil, (left_id_L ∅ (∪)).
  - by rewrite Write_cons, IH, list_to_map_cons, insert_union_l.
Qed.

(** Writing a batch a second time changes nothing. *)
Lemma Write_twice (db : gmap string (gset string)) batch :
  Write (Write db batch) batch = Write db batch.
Proof.
  rewrite (Write_union (Write db batch)), (Write_union db batch).
  rewrite (assoc_L (∪)). f_equal. apply (idemp_L (∪)).
Qed.

Lemma Write_written (db : gmap string (gset string)) batch :
  Write (Write db batch) (written write_clears batch) = Write db batch.
Proof. unfold written. destruct write_clears; [done|apply Write_twice]. Qed.

(** One label record: whether or not the batch is flushed, the store
    with its batch written holds one more record. *)
Lemma kvs_insert_entryset_pending self label node_set :
  kvs_pending (kvs_insert_entryset flush_every write_clears self label node_set)
  = <[label := node_set]> (kvs_pending self).
Proof.
  unfold kvs_insert_entryset, kvs_pending.
  case_bool_decide;
    cbn [kvs kvs_batch set_kvs set_kvs_batch set_kvs_counter];
    [by rewrite Write_written|done].
Qed.

Lemma kvs_insert_all_pending (records : list (string * gset string)) :
  ∀ self,
    kvs_pending
      (foldl (λ s g, kvs_insert_entryset flush_every write_clears s g.1 g.2)
             self records)
    = put_all (kvs_pending self) records.
Proof.
  induction records as [|[key value] records IH]; intros self; [done|].
  simpl. by rewrite IH, kvs_insert_entryset_pending.
Qed.

(** The Label Index after the build: the records of the label groups on
    top of what the store and its batch held before. *)
Lemma create_kvs_from_sql_kvs self :
  kvs (create_kvs_from_sql flush_every write_clears self) =
  put_all (kvs_pending self) (groups (order_by_key (yago_node self))).
Proof.
  unfold create_kvs_from_sql. simpl. rewrite group_rows_groups.
  apply kvs_insert_all_pending.
Qed.

Lemma create_kvs_unbatched_kvs self :
  kvs (create_kvs_unbatched self) =
  put_all (kvs self) (groups (order_by_key (yago_node self))).
Proof.
  unfold create_kvs_unbatched. rewrite group_rows_groups.
  generalize (groups (order_by_key (yago_node self))). intros records.
  revert self. induction records as [|[key value] records IH]; intros self;
    [done|].
  simpl. by rewrite IH.
Qed.

Lemma kvs_lookup_after_build self L :
  Resolver.kvs_map_lemma (create_kvs_from_sql flush_every write_clears self) L =
  if decide (nodes_under (yago_node self) L = ∅) then kvs_pending self !! L
  else Some (nodes_under (yago_node self) L).
Proof.
  unfold Resolver.kvs_map_lemma. rewrite create_kvs_from_sql_kvs.
  rewrite put_all_groups_lookup by apply order_by_key_sorted.
  by rewrite (nodes_under_perm _ _ L (order_by_key_perm (yago_node self))).
Qed.

(** C5: after [create_kvs_from_sql] on empty stores, the lookup of a label
    that has a row returns exactly the set of the nodes of its rows, the
    lookup of a label without row returns [None], and no lookup returns an
    empty set; this holds for every flush interval. *)
Theorem label_index_exact self :
  kvs self = ∅ → kvs_batch self = [] →
  let built := create_kvs_from_sql flush_every write_clears self in
  (∀ L n, (L, n) ∈ yago_node self →
          Resolver.kvs_map_lemma built L = Some (nodes_under (yago_node self) L) ∧
          ∀ x, x ∈ nodes_under (yago_node self) L ↔ (L, x) ∈ yago_node self) ∧
  (∀ L, (∀ n, (L, n) ∉ yago_node self) →
        Resolver.kvs_map_lemma built L = None) ∧
  (∀ L, Resolver.kvs_map_lemma built L ≠ Some ∅).
Proof.
  intros Hkvs Hbatch built.
  assert (Hlookup : ∀ L, Resolver.kvs_map_lemma built L =
    if decide (nodes_under (yago_node self) L = ∅) then None
    else Some (nodes_under (yago_node self) L)).
  { intros L. unfold built. rewrite kvs_lookup_after_build.
    unfold kvs_pending. by rewrite Hkvs, Hbatch. }
  split; [|split].
  - intros L n Hin. split; [|intros x; apply elem_of_nodes_under].
    rewrite Hlookup, decide_False; [done|].
    intros Hempty. apply elem_of_nodes_under in Hin.
    rewrite Hempty in Hin. by apply not_elem_of_empty in Hin.
  - intros L Hnone. rewrite Hlookup, decide_True; [done|].
    apply set_eq. intros x. rewrite elem_of_nodes_under.
    split; [by intros ?%Hnone|by intros ?%not_elem_of_empty].
  - intros L. rewrite Hlookup. case_decide; congruence.
Qed.

(** The Label Index does not depend on the batching: with an empty batch
    to start from, the batched build and the unbatched build leave the
    same store, whatever the flush interval. *)
Lemma label_index_batching_irrelevant self :
  kvs_batch self = [] →
  kvs (create_kvs_from_sql flush_every write_clears self) =
  kvs (create_kvs_unbatched self).
Proof.
  intros Hbatch. rewrite create_kvs_from_sql_kvs, create_kvs_unbatched_kvs.
  unfold kvs_pending. by rewrite Hbatch.
Qed.

Lemma put_all_Write (records : list (string * gset string)) :
  ∀ db, put_all db records = Write db (reverse records).
Proof.
  induction records as [|[key value] records IH]; intros db; [done|].
  rewrite reverse_cons. unfold Write. rewrite foldr_app. simpl.
  apply IH.
Qed.

(** [kvs_insert_entryset] and [index_part] field by field, for a binding
    whose [Write] leaves the batch as it is. *)
Lemma kvs_insert_entryset_fields self label node_set :
  kvs_insert_entryset flush_every false self label node_set =
  mkYagoDict (yago_node self) (yago_cpnd self) (yago_taxn self)
    (yago_hrch self)
    (if bool_decide ((kvs_counter self + 1) `mod` flush_every = 0)%Z
     then Write (kvs self) ((label, node_set) :: kvs_batch self)
     else kvs self)
    (idx self) ((label, node_set) :: kvs_batch self) (idx_batch self)
    (kvs_counter self + 1).
Proof. unfold kvs_insert_entryset. simpl. by case_bool_decide. Qed.

Lemma index_part_fields self part node_set :
  index_part flush_every false self part node_set =
  mkYagoDict (yago_node self) (yago_cpnd self) (yago_taxn self)
    (yago_hrch self) (kvs self)
    (if bool_decide ((kvs_counter self + 1) `mod` flush_every = 0)%Z
     then Write (idx self) (kvs_batch self)
     else idx self)
    (kvs_batch self) ((part, node_set) :: idx_batch self)
    (kvs_counter self + 1).
Proof. unfold index_part. simpl. by case_bool_decide. Qed.

Lemma kvs_insert_all_fields (records : list (string * gset string)) :
  ∀ self,
    let self' :=
      foldl (λ s g, kvs_insert_entryset flush_every false s g.1 g.2)
            self records in
    yago_node self' = yago_node self ∧ yago_cpnd self' = yago_cpnd self ∧
    idx self' = idx self ∧ idx_batch self' = idx_batch self ∧
    kvs_batch self' = reverse records ++ kvs_batch self ∧
    kvs_counter self' = (kvs_counter self + Z.of_nat (length records))%Z.
Proof.
  induction records as [|[key value] records IH]; intros self.
  - simpl. repeat split; lia.
  - cbn [foldl fst snd]. rewrite kvs_insert_entryset_fields.
    destruct (IH (mkYagoDict (yago_node self) (yago_cpnd self)
                    (yago_taxn self) (yago_hrch self)
                    (if bool_decide
                          ((kvs_counter self + 1) `mod` flush_every = 0)%Z
                     then Write (kvs self) ((key, value) :: kvs_batch self)
                     else kvs self)
                    (idx self) ((key, value) :: kvs_batch self)
                    (idx_batch self) (kvs_counter self + 1)))
      as (Hn & Hc & Hi & Hib & Hkb & Hcnt).
    simpl in *. repeat split; try done.
    + by rewrite Hkb, reverse_cons, <-(assoc_L (++)).
    + rewrite Hcnt. lia.
Qed.

(** The part build on such a binding: the batch of the Part Index
    collects the part records, and the store receives the batch of the
    Label Index as soon as the counter passes a multiple of the interval. *)
Lemma index_all_fields (records : list (string * gset string)) :
  ∀ self,
    let self' :=
      foldl (λ s g, index_part flush_every false s g.1 g.2) self records in
    idx_batch self' = reverse records ++ idx_batch self ∧
    idx self' =
      (if flushed flush_every (kvs_counter self) records
       then Write (idx self) (kvs_batch self) else idx self).
Proof.
  induction records as [|[key value] records IH]; intros self; [done|].
  cbn [foldl fst snd flushed]. rewrite index_part_fields.
  destruct (IH (mkYagoDict (yago_node self) (yago_cpnd self)
                  (yago_taxn self) (yago_hrch self) (kvs self)
                  (if bool_decide
                        ((kvs_counter self + 1) `mod` flush_every = 0)%Z
                   then Write (idx self) (kvs_batch self)
                   else idx self)
                  (kvs_batch self) ((key, value) :: idx_batch self)
                  (kvs_counter self + 1)))
    as (Hib & Hi).
  simpl in *. split.
  - by rewrite Hib, reverse_cons, <-(assoc_L (++)).
  - rewrite Hi. case_bool_decide; simpl; [|done].
    destruct (flushed _ _ _); [apply Write_twice|done].
Qed.

Lemma with_parts_fields self :
  yago_node (with_parts findall self) = yago_node self ∧
  kvs (with_parts findall self) = kvs self ∧
  idx (with_parts findall self) = idx self ∧
  kvs_batch (with_parts findall self) = kvs_batch self ∧
  idx_batch (with_parts findall self) = idx_batch self ∧
  kvs_counter (with_parts findall self) = kvs_counter self.
Proof.
  unfold with_parts. generalize (order_by_key (yago_node self)).
  intros rows. revert self.
  induction rows as [|[label node] rows IH]; intros self; [done|].
  cbn [foldl].
  assert (Hinner : ∀ parts s,
    let s' := foldl (λ s part, sql_insert_part s part node) s parts in
    yago_node s' = yago_node s ∧ kvs s' = kvs s ∧ idx s' = idx s ∧
    kvs_batch s' = kvs_batch s ∧ idx_batch s' = idx_batch s ∧
    kvs_counter s' = kvs_counter s).
  { induction parts as [|part parts IHp]; intros s; [done|].
    cbn [foldl]. destruct (IHp (sql_insert_part s part node))
      as (-> & -> & -> & -> & -> & ->).
    unfold sql_insert_part. by case_bool_decide. }
  destruct (IH (foldl (λ s part, sql_insert_part s part node) self
                  (findall label))) as (-> & -> & -> & -> & -> & ->).
  apply Hinner.
Qed.

(** The Part Index after the build on such a binding, starting with an
    empty batch: the part records, on top of the batch of the Label Index
    if a flush came about, on top of what the store held. *)
Lemma create_idx_from_sql_idx self :
  idx_batch self = [] →
  let parts := groups (order_by_key (yago_cpnd (with_parts findall self))) in
  idx (create_idx_from_sql findall flush_every false self) =
  put_all (if flushed flush_every (kvs_counter self) parts
           then Write (idx self) (kvs_batch self) else idx self)
          parts.
Proof.
  intros Hbatch parts. unfold create_idx_from_sql.
  fold (with_parts findall self). cbn [idx set_idx set_idx_batch].
  rewrite group_rows_groups. fold parts.
  destruct (index_all_fields parts (with_parts findall self)) as [Hib Hi].
  destruct (with_parts_fields self) as (_ & _ & Hidx & Hkb & Hidb & Hcnt).
  simpl in Hib, Hi. rewrite Hib, Hi, Hidx, Hkb, Hidb, Hcnt, Hbatch.
  by rewrite (right_id_L [] (++)), put_all_Write.
Qed.

Lemma create_idx_unbatched_idx self :
  idx (create_idx_unbatched findall self) =
  put_all (idx self)
    (groups (order_by_key (yago_cpnd (with_parts findall self)))).
Proof.
  unfold create_idx_unbatched. fold (with_parts findall self).
  rewrite group_rows_groups.
  destruct (with_parts_fields self) as (_ & _ & <- & _).
  generalize (groups (order_by_key (yago_cpnd (with_parts findall self)))).
  generalize (with_parts findall self).
  intros s records. revert s.
  induction records as [|[key value] records IH]; intros s; [done|].
  simpl. by rewrite IH.
Qed.

(** A counter below a multiple of the interval that the records carry to
    or past it: a flush comes about. *)
Lemma flushed_crossing (records : list (string * gset string)) :
  ∀ counter,
    (0 ≤ counter < flush_every)%Z →
    (flush_every ≤ counter + Z.of_nat (length records))%Z →
    flushed flush_every counter records = true.
Proof.
  induction records as [|r records IH]; intros counter Hc Hcross.
  - simpl in Hcross. lia.
  - cbn [flushed]. destruct (decide (counter + 1 = flush_every)%Z) as [Heq|Hne].
    + rewrite bool_decide_eq_true_2; [done|]. rewrite Heq.
      apply Z.mod_same. lia.
    + rewrite IH; [by rewrite orb_true_r|lia|].
      cbn [length] in Hcross. lia.
Qed.

Lemma create_kvs_from_sql_fields self :
  let self' := create_kvs_from_sql flush_every false self in
  let labels := groups (order_by_key (yago_node self)) in
  yago_node self' = yago_node self ∧ yago_cpnd self' = yago_cpnd self ∧
  idx self' = idx self ∧ idx_batch self' = idx_batch self ∧
  kvs_batch self' = reverse labels ++ kvs_batch self ∧
  kvs_counter self' = (kvs_counter self + Z.of_nat (length labels))%Z.
Proof.
  intros self' labels. unfold self', create_kvs_from_sql.
  rewrite group_rows_groups. fold labels.
  cbn [yago_node yago_cpnd idx idx_batch kvs_batch kvs_counter
       set_kvs set_kvs_batch written].
  apply kvs_insert_all_fields.
Qed.

(** What the slip in [index_part] does to a fresh object: when the label
    build leaves the counter below the flush interval and the part build
    carries it to the interval, every label that is not a part is a key of
    the batched Part Index, with the nodes of the label, while the
    unbatched build of the same state has no such key. *)
Lemma part_index_polluted self L :
  kvs_batch self = [] → idx_batch self = [] → idx self = ∅ →
  kvs_counter self = 0%Z →
  let self1 := create_kvs_from_sql flush_every false self in
  let labels := groups (order_by_key (yago_node self)) in
  let cpnd := yago_cpnd (with_parts findall self1) in
  let parts := groups (order_by_key cpnd) in
  (Z.of_nat (length labels) < flush_every)%Z →
  (flush_every ≤ Z.of_nat (length labels) + Z.of_nat (length parts))%Z →
  nodes_under (yago_node self) L ≠ ∅ →
  nodes_under cpnd L = ∅ →
  Resolver.idx_map_part (create_idx_from_sql findall flush_every false self1) L
    = Some (nodes_under (yago_node self) L) ∧
  Resolver.idx_map_part (create_idx_unbatched findall self1) L = None.
Proof.
  intros Hkb Hib Hidx Hcnt self1 labels cpnd parts Hbelow Hcross Hlabel Hpart.
  destruct (create_kvs_from_sql_fields self)
    as (Hn1 & Hc1 & Hidx1 & Hib1 & Hkb1 & Hcnt1).
  fold self1 labels in Hn1, Hc1, Hidx1, Hib1, Hkb1, Hcnt1.
  assert (Hsorted_parts : ∀ db : gmap string (gset string),
            put_all db parts !! L = db !! L).
  { intros db. unfold parts.
    rewrite put_all_groups_lookup by apply order_by_key_sorted.
    rewrite (nodes_under_perm _ _ L (order_by_key_perm cpnd)), Hpart.
    by rewrite decide_True. }
  unfold Resolver.idx_map_part. split.
  - rewrite create_idx_from_sql_idx by congruence. fold cpnd parts.
    rewrite Hsorted_parts, flushed_crossing by lia.
    rewrite Hidx1, Hidx, Hkb1, Hkb, (right_id_L [] (++)), <-put_all_Write.
    unfold labels.
    rewrite put_all_groups_lookup by apply order_by_key_sorted.
    rewrite (nodes_under_perm _ _ L (order_by_key_perm (yago_node self))).
    by rewrite decide_False.
  - rewrite create_idx_unbatched_idx. fold cpnd parts.
    by rewrite Hsorted_parts, Hidx1, Hidx.
Qed.

End stores.

Lemma label_index_exact_witness :
  Resolver.kvs_map_lemma
    (Build.create_kvs_from_sql Build.FLUSH_EVERY false
       (labelled [("dog", "<wordnet_dog_1>"); ("house", "<wordnet_house_1>");
                  ("dog", "<wordnet_dog_2>")] [])) "dog"
  = Some {[ "<wordnet_dog_1>"; "<wordnet_dog_2>" ]} ∧
  Resolver.kvs_map_lemma
    (Build.create_kvs_from_sql Build.FLUSH_EVERY false
       (labelled [("dog", "<wordnet_dog_1>"); ("house", "<wordnet_house_1>");
                  ("dog", "<wordnet_dog_2>")] [])) "cat"
  = None.
Proof.
  destruct (label_index_exact Build.FLUSH_EVERY false
              (labelled [("dog", "<wordnet_dog_1>");
                         ("house", "<wordnet_house_1>");
                         ("dog", "<wordnet_dog_2>")] []))
    as (Hin & Hout & _); [done|done|].
  split.
  - destruct (Hin "dog" "<wordnet_dog_1>") as [-> _]; [by left|].
    by_evaluation.
  - apply Hout. intros n Hn. revert Hn. by_evaluation.
Defined.

(** C7, the Part Index half, at the flush interval of the source: the
    object holds the label record of "new york" in [kvs_batch] and its
    counter stands at 99999. The first record [index_part] emits makes the
    counter 100000, and the flush writes [kvs_batch] to the Part Index:
    "new york" becomes a key of the Part Index, which the unbatched build
    of the same rows does not have. *)
Theorem part_index_flush_writes_label_batch :
  Resolver.idx_map_part
    (Build.create_idx_from_sql Build.ascii_findall Build.FLUSH_EVERY false
       new_york_at_99999) "new york" = Some {[ "<New_York>" ]} ∧
  Resolver.idx_map_part
    (Build.create_idx_unbatched Build.ascii_findall new_york_at_99999)
    "new york" = None ∧
  Resolver.idx_map_part
    (Build.create_idx_unbatched Build.ascii_findall new_york_at_99999)
    "york" = Some {[ "<New_York>" ]}.
Proof. split; [|split]; by_evaluation. Qed.

(** The same from a fresh object, with a flush interval of 2: the label
    build emits one record, the part build two. *)
Example part_index_polluted_interval_2 :
  Resolver.idx_map_part
    (Build.create_idx_from_sql Build.ascii_findall 2 false
       (Build.create_kvs_from_sql 2 false new_york)) "new york"
    = Some {[ "<New_York>" ]} ∧
  Resolver.idx_map_part
    (Build.create_idx_unbatched Build.ascii_findall
       (Build.create_kvs_unbatched new_york)) "new york" = None.
Proof.
  split; [|by_evaluation].
  eapply (proj1 (part_index_polluted Build.ascii_findall 2 new_york "new york"
            eq_refl eq_refl eq_refl eq_refl _ _ _ _)).
  Unshelve. all: by_evaluation.
Qed.

(** * Further properties of the taxonomy queries *)

Section taxonomy_more.
Import Taxonomy.
Variable self : YagoDict.

(** A node from which edge paths of every length start. *)
Lemma cycle_paths_unbounded x :
  tc (hrch_edge self) x x →
  ∀ m, ∃ y, nsteps (hrch_edge self) m x y ∧ tc (hrch_edge self) y x.
Proof.
  intros Hcycle. induction m as [|m (y & Hpath & Hback)].
  - exists x. split; [constructor|done].
  - inversion Hback as [? ? Hyx|? z ? Hyz Hzx]; subst.
    + exists x. split; [by eapply nsteps_r|done].
    + exists z. split; [by eapply nsteps_r|done].
Qed.

Lemma reachable_cycle_unbounded child x :
  rtc (hrch_edge self) child x → tc (hrch_edge self) x x →
  ∀ m, ∃ y, nsteps (hrch_edge self) m child y.
Proof.
  intros Hreach Hcycle. induction Hreach as [x|a b x Hab Hbx IH].
  - intros m. destruct (cycle_paths_unbounded x Hcycle m) as (y & Hy & _).
    eauto.
  - intros [|m]; [exists a; constructor|].
    destruct (IH Hcycle m) as (y & Hy). exists y. by eapply nsteps_l.
Qed.

(** A frontier that holds the start of paths of every length never
    empties. *)
Lemma find_all_classes_loop_unbounded fuel : ∀ classes new_classes,
  (∀ m, ∃ x y, x ∈ new_classes ∧ nsteps (hrch_edge self) m x y) →
  find_all_classes_loop self fuel classes new_classes = None.
Proof.
  induction fuel as [|fuel IH]; intros classes new Hpaths.
  - destruct new as [|n new]; [|done].
    destruct (Hpaths 0%nat) as (x & _ & Hx & _). by apply elem_of_nil in Hx.
  - destruct new as [|n new].
    { destruct (Hpaths 0%nat) as (x & _ & Hx & _). by apply elem_of_nil in Hx. }
    rewrite find_all_classes_loop_step. apply IH. intros m.
    destruct (Hpaths (S m)) as (x & y & Hx & Hpath).
    inversion Hpath as [|? ? z ? Hxz Hzy]; subst.
    exists z, y. split; [|done].
    apply list_elem_of_bind. exists x. split; [|done].
    by apply elem_of_hrch_parents.
Qed.

(** X1: when a node that lies on a cycle of the hierarchy can be reached
    from [child] (or is [child]), [find_all_classes] returns with no fuel
    at all: the call does not terminate. *)
Theorem find_all_classes_reachable_cycle (child x : node) :
  rtc (hrch_edge self) child x → tc (hrch_edge self) x x →
  ∀ fuel, find_all_classes self fuel child = None.
Proof.
  intros Hreach Hcycle fuel. unfold find_all_classes.
  rewrite find_all_classes_loop_unbounded; [done|].
  intros m.
  destruct (reachable_cycle_unbounded child x Hreach Hcycle (S m))
    as (y & Hpath).
  inversion Hpath as [|? ? z ? Hcz Hzy]; subst.
  exists z, y. split; [|done]. by apply elem_of_hrch_parents.
Qed.

(** X2: whatever the hierarchy, a call of [find_all_classes] that returns
    has collected [child] and exactly the nodes reachable from it, and
    more fuel gives the same set. *)
Theorem find_all_classes_returns_closure (fuel : nat) (child : node)
    (s : gset string) :
  find_all_classes self fuel child = Some s →
  child ∈ s ∧
  (∀ x, x ∈ s ↔ rtc (hrch_edge self) child x) ∧
  (∀ fuel', (fuel ≤ fuel')%nat → find_all_classes self fuel' child = Some s).
Proof.
  unfold find_all_classes. intros Hrun.
  destruct (find_all_classes_loop self fuel [child] (hrch_parents self child))
    as [res|] eqn:Hres; [|done].
  injection Hrun as <-.
  pose proof (find_all_classes_loop_spec self _ _ _ _ Hres) as Hspec.
  assert (Hmem : ∀ x, x ∈ (list_to_set res : gset string) ↔
                      rtc (hrch_edge self) child x).
  { intros x. rewrite elem_of_list_to_set, Hspec. split.
    - intros [->%list_elem_of_singleton|(y & Hy & Hyx)]; [apply rtc_refl|].
      eapply rtc_l; [|exact Hyx]. by apply elem_of_hrch_parents.
    - intros Hx. inversion Hx as [|? y ? Hedge Hyx]; subst.
      + left. apply list_elem_of_here.
      + right. exists y. split; [|done]. by apply elem_of_hrch_parents. }
  split; [apply Hmem, rtc_refl|]. split; [done|].
  intros fuel' Hle.
  by rewrite (find_all_classes_loop_mono self _ fuel' _ _ _ Hres Hle).
Qed.

(** X3: [find_class] answers [None] exactly for an instance without a row
    in [yago_taxn]; a set it returns is not empty and holds exactly the
    classes of the rows of the instance. *)
Theorem find_class_rows (instance : node) :
  (find_class self instance = None ↔
   ∀ cls, (instance, cls) ∉ yago_taxn self) ∧
  (∀ s, find_class self instance = Some s →
        s ≠ ∅ ∧ ∀ cls, cls ∈ s ↔ (instance, cls) ∈ yago_taxn self).
Proof.
  unfold find_class.
  destruct (select_where instance (yago_taxn self)) as [|c classes] eqn:Hsel.
  - assert (Hnone : ∀ cls, (instance, cls) ∉ yago_taxn self).
    { intros cls Hin. apply elem_of_select_where in Hin.
      rewrite Hsel in Hin. by apply elem_of_nil in Hin. }
    rewrite bool_decide_eq_false_2 by (simpl; lia). split; [done|].
    intros s [=].
  - rewrite bool_decide_eq_true_2 by (simpl; lia). split.
    + split; [done|]. intros Hnone. exfalso. apply (Hnone c).
      apply elem_of_select_where. rewrite Hsel. by left.
    + intros s [= <-].
      assert (Hmem : ∀ cls, cls ∈ (list_to_set (c :: classes) : gset string)
                            ↔ (instance, cls) ∈ yago_taxn self).
      { intros cls. by rewrite elem_of_list_to_set, <-Hsel,
          elem_of_select_where. }
      split; [|done]. intros Hempty.
      apply (not_elem_of_empty (C:=gset string) c). rewrite <-Hempty.
      apply elem_of_union. left. by apply elem_of_singleton.
Qed.

End taxonomy_more.

Lemma find_all_classes_reachable_cycle_witness :
  Taxonomy.find_all_classes lasso 1000 "C" = None.
Proof.
  apply (find_all_classes_reachable_cycle lasso "C" "A").
  - apply rtc_once. unfold Taxonomy.hrch_edge. simpl. by left.
  - eapply tc_l; [|apply tc_once]; unfold Taxonomy.hrch_edge; simpl.
    + right. by left.
    + right. right. by left.
Defined.

Lemma find_all_classes_returns_closure_witness :
  "<wordnet_c1>" ∈ ({[ "<wordnet_c1>"; "<wordnet_c2>" ]} : gset string) ∧
  (∀ x, x ∈ ({[ "<wordnet_c1>"; "<wordnet_c2>" ]} : gset string) ↔
        rtc (Taxonomy.hrch_edge chain) "<wordnet_c1>" x) ∧
  (∀ fuel', (1 ≤ fuel')%nat →
            Taxonomy.find_all_classes chain fuel' "<wordnet_c1>" =
            Some {[ "<wordnet_c1>"; "<wordnet_c2>" ]}).
Proof.
  apply (find_all_classes_returns_closure chain 1 "<wordnet_c1>").
  by_evaluation.
Defined.

Lemma find_class_rows_witness :
  ({[ "<wordnet_director_1>"; "<wordnet_person_1>" ]} : gset string) ≠ ∅ ∧
  ∀ cls, cls ∈ ({[ "<wordnet_director_1>"; "<wordnet_person_1>" ]}
                 : gset string) ↔
         ("<Tim_Story>", cls) ∈ yago_taxn tim_classes.
Proof.
  apply (proj2 (find_class_rows tim_classes "<Tim_Story>")).
  by_evaluation.
Defined.

(** * Further properties of the relational store and the Label Index *)

Section tables_more.
Import Tables.

(** The answer of a keyed [SELECT] turned into a set or [None]. *)
Lemma select_set (t : table) (key : string) :
  (if bool_decide (0 < length (select_where key t))%nat
   then Some (list_to_set (select_where key t) : gset string) else None) =
  if decide (nodes_under t key = ∅) then None else Some (nodes_under t key).
Proof.
  unfold nodes_under.
  destruct (select_where key t) as [|n nodes] eqn:Hsel.
  - by rewrite bool_decide_eq_false_2, decide_True by (done || simpl; lia).
  - rewrite bool_decide_eq_true_2 by (simpl; lia).
    rewrite decide_False; [done|]. intros Hempty.
    apply (not_elem_of_empty (C:=gset string) n). rewrite <-Hempty.
    apply elem_of_union. left. by apply elem_of_singleton.
Qed.

Lemma nodes_under_snoc (t : table) key' node key :
  nodes_under (t ++ [(key', node)]) key =
  if decide (key' = key) then nodes_under t key ∪ {[node]}
  else nodes_under t key.
Proof.
  apply set_eq. intros x. case_decide as Hk.
  - subst. rewrite elem_of_union, elem_of_singleton, !elem_of_nodes_under.
    rewrite elem_of_app, list_elem_of_singleton.
    split; [intros [?|[= ->]]|intros [?| ->]]; auto.
  - rewrite !elem_of_nodes_under, elem_of_app, list_elem_of_singleton.
    split; [intros [?|[= -> ->]]|]; auto. done.
Qed.

(** X4: a pair entered with [sql_insert_txn_transition] is found by
    [find_class]: the answer for the instance is its former classes plus
    the new one, the answers for the other instances do not change, and
    entering the pair a second time changes nothing. *)
Theorem txn_transition_insert_lookup (self : YagoDict) (inst cls : node) :
  Taxonomy.find_class (sql_insert_txn_transition self inst cls) inst =
    Some ({[cls]} ∪ default ∅ (Taxonomy.find_class self inst)) ∧
  (∀ inst', inst' ≠ inst →
     Taxonomy.find_class (sql_insert_txn_transition self inst cls) inst' =
     Taxonomy.find_class self inst') ∧
  sql_insert_txn_transition (sql_insert_txn_transition self inst cls) inst cls
    = sql_insert_txn_transition self inst cls.
Proof.
  assert (Hfind : ∀ d i, Taxonomy.find_class d i =
    if decide (nodes_under (yago_taxn d) i = ∅) then None
    else Some (nodes_under (yago_taxn d) i)).
  { intros d i. apply select_set. }
  unfold sql_insert_txn_transition. case_bool_decide as Hin.
  - split; [|split; [done|by rewrite bool_decide_eq_true_2]].
    rewrite Hfind. apply elem_of_nodes_under in Hin.
    rewrite decide_False.
    2:{ intros Hempty. rewrite Hempty in Hin.
        by apply not_elem_of_empty in Hin. }
    simpl. f_equal. apply set_eq. intros x.
    rewrite elem_of_union, elem_of_singleton. split; [auto|].
    by intros [->|?].
  - split; [|split].
    + rewrite !Hfind. cbn [yago_taxn set_yago_taxn].
      rewrite nodes_under_snoc, (decide_True (P:=inst = inst)) by done.
      rewrite decide_False.
      2:{ intros Hempty. apply (not_elem_of_empty (C:=gset string) cls).
          rewrite <-Hempty. apply elem_of_union. right.
          by apply elem_of_singleton. }
      f_equal. case_decide as Hold; simpl.
      * rewrite Hold. by rewrite (comm_L (∪)).
      * by rewrite (comm_L (∪)).
    + intros inst' Hne. rewrite !Hfind. cbn [yago_taxn set_yago_taxn].
      by rewrite nodes_under_snoc, (decide_False (P:=inst = inst')).
    + cbn [yago_taxn set_yago_taxn]. rewrite bool_decide_eq_true_2; [done|].
      apply elem_of_app. right. by left.
Qed.

(** X5: [sql_insert_txn_relation] adds the parent to the parents the
    hierarchy lists for the child, leaves the parents of every other node
    alone, and never enters an edge twice. *)
Theorem txn_relation_insert_parents (self : YagoDict) (child parent : node) :
  (∀ p, p ∈ Taxonomy.hrch_parents
              (sql_insert_txn_relation self child parent) child ↔
        p = parent ∨ p ∈ Taxonomy.hrch_parents self child) ∧
  (∀ child', child' ≠ child →
     Taxonomy.hrch_parents (sql_insert_txn_relation self child parent) child'
     = Taxonomy.hrch_parents self child') ∧
  (NoDup (yago_hrch self) →
   NoDup (yago_hrch (sql_insert_txn_relation self child parent))).
Proof.
  unfold sql_insert_txn_relation, Taxonomy.hrch_parents.
  case_bool_decide as Hin.
  - split; [|split; [done|done]].
    intros p. rewrite !elem_of_select_where. split; [auto|].
    by intros [->|?].
  - cbn [yago_hrch set_yago_hrch]. split; [|split].
    + intros p. rewrite !elem_of_select_where, elem_of_app,
        list_elem_of_singleton.
      split; [intros [?|[= ->]]|intros [->|?]]; auto.
    + intros child' Hne. unfold select_where.
      rewrite filter_app, fmap_app, filter_cons, filter_nil.
      rewrite decide_False by (simpl; congruence).
      apply (right_id_L [] (++)).
    + intros Hnd. apply NoDup_app. split; [done|]. split.
      * intros r Hr ->%list_elem_of_singleton. done.
      * apply NoDup_singleton.
Qed.

Section label_index.
Variable flush_every : Z.
Variable write_clears : bool.

(** X6: on empty stores the Label Index that [create_kvs_from_sql] builds
    answers every lemma as the query [sql_map_lemma] on the table does. *)
Theorem label_index_agrees_with_sql (self : YagoDict) (lemma : string) :
  kvs self = ∅ → kvs_batch self = [] →
  Resolver.kvs_map_lemma
    (Build.create_kvs_from_sql flush_every write_clears self) lemma =
  sql_map_lemma self lemma.
Proof.
  intros Hkvs Hbatch. rewrite kvs_lookup_after_build.
  unfold sql_map_lemma. rewrite select_set. unfold kvs_pending.
  by rewrite Hkvs, Hbatch.
Qed.

(** X7: a row entered with [sql_insert_entry] is served by the Label
    Index built afterwards: the lookup of its label returns its node next
    to the nodes the table already had under that label. *)
Theorem insert_entry_then_build (self : YagoDict) (label : string)
    (node : node) :
  kvs self = ∅ → kvs_batch self = [] →
  ∃ s, Resolver.kvs_map_lemma
         (Build.create_kvs_from_sql flush_every write_clears
            (sql_insert_entry self label node)) label = Some s ∧
       ∀ n, n ∈ s ↔ n = node ∨ (label, n) ∈ yago_node self.
Proof.
  intros Hkvs Hbatch. rewrite kvs_lookup_after_build.
  cbn [yago_node sql_insert_entry set_yago_node].
  rewrite nodes_under_snoc, (decide_True (P:=label = label)) by done.
  rewrite decide_False.
  2:{ intros Hempty. apply (not_elem_of_empty (C:=gset string) node).
      rewrite <-Hempty. apply elem_of_union. right.
      by apply elem_of_singleton. }
  eexists. split; [done|]. intros n.
  rewrite elem_of_union, elem_of_singleton, elem_of_nodes_under. tauto.
Qed.

(** X8: building the Label Index a second time over the same table
    leaves the store as the first build left it, whatever the store held
    before. *)
Theorem label_index_rebuild (self : YagoDict) :
  kvs (Build.create_kvs_from_sql flush_every write_clears
         (Build.create_kvs_from_sql flush_every write_clears self)) =
  kvs (Build.create_kvs_from_sql flush_every write_clears self).
Proof.
  apply map_eq. intros L.
  pose proof (kvs_lookup_after_build flush_every write_clears) as Hlook.
  unfold Resolver.kvs_map_lemma in Hlook. rewrite !Hlook.
  assert (Hnode : yago_node
            (Build.create_kvs_from_sql flush_every write_clears self) =
          yago_node self).
  { unfold Build.create_kvs_from_sql.
    cbn [yago_node Build.set_kvs Build.set_kvs_batch].
    rewrite group_rows_groups.
    generalize (groups (Build.order_by_key (yago_node self))).
    intros records. revert self.
    induction records as [|[key value] records IH]; intros self; [done|].
    cbn [foldl]. rewrite IH. unfold Build.kvs_insert_entryset.
    by case_bool_decide. }
  rewrite Hnode. case_decide; [|done].
  assert (Hpending : kvs_pending
            (Build.create_kvs_from_sql flush_every write_clears self) =
          kvs (Build.create_kvs_from_sql flush_every write_clears self)).
  { unfold kvs_pending, Build.create_kvs_from_sql.
    cbn [kvs kvs_batch Build.set_kvs Build.set_kvs_batch].
    apply Write_written. }
  rewrite Hpending, Hlook. by rewrite decide_True.
Qed.

End label_index.

End tables_more.

Lemma label_index_agrees_with_sql_witness :
  Resolver.kvs_map_lemma
    (Build.create_kvs_from_sql Build.FLUSH_EVERY false
       (labelled [("dog", "<wordnet_dog_1>"); ("dog", "<wordnet_dog_2>")] []))
    "dog" =
  Tables.sql_map_lemma
    (labelled [("dog", "<wordnet_dog_1>"); ("dog", "<wordnet_dog_2>")] [])
    "dog".
Proof.
  by apply (label_index_agrees_with_sql Build.FLUSH_EVERY false).
Defined.

Lemma insert_entry_then_build_witness :
  ∃ s, Resolver.kvs_map_lemma
         (Build.create_kvs_from_sql Build.FLUSH_EVERY false
            (Tables.sql_insert_entry
               (labelled [("dog", "<wordnet_dog_1>")] [])
               "dog" "<wordnet_dog_2>")) "dog" = Some s ∧
       ∀ n, n ∈ s ↔
            n = "<wordnet_dog_2>" ∨
            ("dog", n) ∈ yago_node (labelled [("dog", "<wordnet_dog_1>")] []).
Proof.
  by apply (insert_entry_then_build Build.FLUSH_EVERY false).
Defined.

Lemma txn_relation_insert_parents_witness :
  NoDup (yago_hrch (Tables.sql_insert_txn_relation chain
                      "<wordnet_c2>" "<wordnet_c3>")).
Proof.
  apply (txn_relation_insert_parents chain "<wordnet_c2>" "<wordnet_c3>").
  apply NoDup_singleton.
Defined.

Lemma txn_transition_insert_lookup_witness :
  Taxonomy.find_class
    (Tables.sql_insert_txn_transition tim_classes "<Tim_Story>"
       "<wordnet_writer_1>") "<Tim>" =
  Taxonomy.find_class tim_classes "<Tim>".
Proof.
  apply (txn_transition_insert_lookup tim_classes "<Tim_Story>"
           "<wordnet_writer_1>").
  by_evaluation.
Defined.

(** * Further properties of the Part Index build *)

Section part_index_more.
Import Build.
Variable findall : string → list string.
Variable flush_every : Z.
Variable write_clears : bool.

Lemma fold_emit_preserves {A : Type} (f : YagoDict → A)
    (emit : YagoDict → string → gset string → YagoDict) :
  (∀ s key value, f (emit s key value) = f s) →
  ∀ (records : list (string * gset string)) s,
    f (foldl (λ s g, emit s g.1 g.2) s records) = f s.
Proof.
  intros Hemit. induction records as [|[key value] records IH]; intros s;
    [done|].
  cbn [foldl fst snd]. by rewrite IH, Hemit.
Qed.

Lemma sql_insert_part_cpnd s part node (r : string * string) :
  r ∈ yago_cpnd (sql_insert_part s part node) ↔
  r ∈ yago_cpnd s ∨ r = (part, node).
Proof.
  unfold sql_insert_part. case_bool_decide as Hin.
  - split; [auto|]. by intros [?| ->].
  - cbn [yago_cpnd set_yago_cpnd].
    by rewrite elem_of_app, list_elem_of_singleton.
Qed.

Lemma insert_parts_cpnd (parts : list string) node : ∀ s (r : string * string),
  r ∈ yago_cpnd (foldl (λ s part, sql_insert_part s part node) s parts) ↔
  r ∈ yago_cpnd s ∨ (r.2 = node ∧ r.1 ∈ parts).
Proof.
  induction parts as [|part parts IH]; intros s r; cbn [foldl].
  - split; [auto|]. intros [?|[_ Hr]]; [done|]. by apply elem_of_nil in Hr.
  - rewrite IH, sql_insert_part_cpnd, elem_of_cons. destruct r as [w n].
    simpl. split.
    + intros [[?|[= -> ->]]|[-> ?]]; auto.
    + intros [?|[-> [->|?]]]; auto.
Qed.

Lemma insert_rows_cpnd (rows : table) : ∀ s (r : string * string),
  r ∈ yago_cpnd
        (foldl (λ s '(label, node),
                  foldl (λ s part, sql_insert_part s part node) s
                        (findall label)) s rows) ↔
  r ∈ yago_cpnd s ∨ ∃ label, (label, r.2) ∈ rows ∧ r.1 ∈ findall label.
Proof.
  induction rows as [|[label node] rows IH]; intros s r; cbn [foldl].
  - split; [auto|]. intros [?|(label & Hr & _)]; [done|].
    by apply elem_of_nil in Hr.
  - rewrite IH, insert_parts_cpnd. setoid_rewrite elem_of_cons. split.
    + intros [[?|[<- ?]]|(l & ? & ?)]; eauto 6.
    + intros [?|(l & [[= -> <-]|?] & ?)]; eauto 6.
Qed.

(** The part table after the extraction: what it held plus one row for
    every word of every label. *)
Lemma with_parts_cpnd self (r : string * string) :
  r ∈ yago_cpnd (with_parts findall self) ↔
  r ∈ yago_cpnd self ∨
  ∃ label, (label, r.2) ∈ yago_node self ∧ r.1 ∈ findall label.
Proof.
  unfold with_parts. rewrite insert_rows_cpnd.
  by setoid_rewrite (order_by_key_perm (yago_node self)).
Qed.

Lemma sql_insert_part_NoDup s part node :
  NoDup (yago_cpnd s) → NoDup (yago_cpnd (sql_insert_part s part node)).
Proof.
  intros Hnd. unfold sql_insert_part. case_bool_decide as Hin; [done|].
  cbn [yago_cpnd set_yago_cpnd]. apply NoDup_app. split; [done|]. split.
  - by intros r Hr ->%list_elem_of_singleton.
  - apply NoDup_singleton.
Qed.

Lemma with_parts_NoDup self :
  NoDup (yago_cpnd self) → NoDup (yago_cpnd (with_parts findall self)).
Proof.
  unfold with_parts. generalize (order_by_key (yago_node self)).
  intros rows. revert self.
  induction rows as [|[label node] rows IH]; intros s Hnd; [done|].
  cbn [foldl]. apply IH. generalize (findall label). intros parts.
  revert s Hnd. induction parts as [|part parts IHp]; intros s Hnd; [done|].
  cbn [foldl]. by apply IHp, sql_insert_part_NoDup.
Qed.

(** An extraction that finds all its rows in the table changes nothing. *)
Lemma insert_rows_present (rows : table) : ∀ s,
  (∀ label node part, (label, node) ∈ rows → part ∈ findall label →
                      (part, node) ∈ yago_cpnd s) →
  yago_cpnd
    (foldl (λ s '(label, node),
              foldl (λ s part, sql_insert_part s part node) s
                    (findall label)) s rows) = yago_cpnd s.
Proof.
  induction rows as [|[label node] rows IH]; intros s Hall; [done|].
  cbn [foldl].
  assert (Hinner : ∀ parts s',
    yago_cpnd s' = yago_cpnd s → (∀ part, part ∈ parts → part ∈ findall label) →
    yago_cpnd (foldl (λ s part, sql_insert_part s part node) s' parts)
    = yago_cpnd s).
  { induction parts as [|part parts IHp]; intros s' Heq Hsub; [done|].
    cbn [foldl]. apply IHp; [|intros p Hp; apply Hsub; by right].
    unfold sql_insert_part. rewrite bool_decide_eq_true_2; [done|].
    rewrite Heq. apply (Hall label); [by left|]. apply Hsub. by left. }
  rewrite IH; [by apply Hinner|].
  intros label' node' part Hrow Hpart. rewrite Hinner by done.
  apply (Hall label'); [by right|done].
Qed.

Lemma index_part_frame s part node_set :
  yago_node (index_part flush_every write_clears s part node_set)
    = yago_node s ∧
  yago_cpnd (index_part flush_every write_clears s part node_set)
    = yago_cpnd s ∧
  yago_taxn (index_part flush_every write_clears s part node_set)
    = yago_taxn s ∧
  yago_hrch (index_part flush_every write_clears s part node_set)
    = yago_hrch s ∧
  kvs (index_part flush_every write_clears s part node_set) = kvs s.
Proof. unfold index_part. by case_bool_decide. Qed.

Lemma kvs_insert_entryset_frame s label node_set :
  yago_node (kvs_insert_entryset flush_every write_clears s label node_set)
    = yago_node s ∧
  yago_cpnd (kvs_insert_entryset flush_every write_clears s label node_set)
    = yago_cpnd s ∧
  yago_taxn (kvs_insert_entryset flush_every write_clears s label node_set)
    = yago_taxn s ∧
  yago_hrch (kvs_insert_entryset flush_every write_clears s label node_set)
    = yago_hrch s ∧
  idx (kvs_insert_entryset flush_every write_clears s label node_set)
    = idx s ∧
  idx_batch (kvs_insert_entryset flush_every write_clears s label node_set)
    = idx_batch s.
Proof. unfold kvs_insert_entryset. by case_bool_decide. Qed.

Lemma with_parts_frame self :
  yago_taxn (with_parts findall self) = yago_taxn self ∧
  yago_hrch (with_parts findall self) = yago_hrch self.
Proof.
  unfold with_parts. generalize (order_by_key (yago_node self)).
  intros rows. revert self.
  induction rows as [|[label node] rows IH]; intros s; [done|].
  cbn [foldl].
  destruct (IH (foldl (λ s part, sql_insert_part s part node) s
                  (findall label))) as [-> ->].
  generalize (findall label). intros parts. revert s.
  induction parts as [|part parts IHp]; intros s; [done|].
  cbn [foldl]. destruct (IHp (sql_insert_part s part node)) as [-> ->].
  unfold sql_insert_part. by case_bool_decide.
Qed.

Lemma create_idx_from_sql_tables self :
  yago_node (create_idx_from_sql findall flush_every write_clears self)
    = yago_node self ∧
  yago_cpnd (create_idx_from_sql findall flush_every write_clears self)
    = yago_cpnd (with_parts findall self).
Proof.
  unfold create_idx_from_sql. fold (with_parts findall self).
  cbn [yago_node yago_cpnd set_idx set_idx_batch].
  rewrite group_rows_groups. split.
  - rewrite (fold_emit_preserves yago_node)
      by (intros; apply index_part_frame).
    apply with_parts_fields.
  - apply (fold_emit_preserves yago_cpnd). intros; apply index_part_frame.
Qed.

(** With nothing in the batch of the Label Index, a flush in
    [index_part] writes nothing, and the Part Index with its batch
    written gains the record. *)
Lemma index_part_pending s part node_set :
  kvs_batch s = [] →
  idx_pending (index_part flush_every write_clears s part node_set)
    = <[part := node_set]> (idx_pending s) ∧
  kvs_batch (index_part flush_every write_clears s part node_set) = [].
Proof.
  intros Hempty. unfold index_part, idx_pending.
  case_bool_decide;
    cbn [idx idx_batch kvs_batch set_idx set_idx_batch set_kvs_batch
         set_kvs_counter];
    rewrite Hempty; [|done].
  split; [done|]. unfold written. by destruct write_clears.
Qed.

Lemma index_all_pending (records : list (string * gset string)) : ∀ s,
  kvs_batch s = [] →
  idx_pending
    (foldl (λ s g, index_part flush_every write_clears s g.1 g.2) s records)
  = put_all (idx_pending s) records.
Proof.
  induction records as [|[key value] records IH]; intros s Hempty; [done|].
  cbn [foldl fst snd].
  destruct (index_part_pending s key value Hempty) as [Hp Hb].
  rewrite IH by done. by rewrite Hp.
Qed.

Lemma part_lookup_after_build self w :
  kvs_batch self = [] →
  Resolver.idx_map_part
    (create_idx_from_sql findall flush_every write_clears self) w =
  if decide (nodes_under (yago_cpnd (with_parts findall self)) w = ∅)
  then idx_pending self !! w
  else Some (nodes_under (yago_cpnd (with_parts findall self)) w).
Proof.
  intros Hempty. unfold Resolver.idx_map_part, create_idx_from_sql.
  fold (with_parts findall self). cbn [idx set_idx set_idx_batch].
  rewrite group_rows_groups.
  change (Write (idx ?s) (idx_batch ?s)) with (idx_pending s).
  destruct (with_parts_fields findall self) as (_ & _ & Hi & Hkb & Hib & _).
  rewrite index_all_pending by congruence.
  rewrite put_all_groups_lookup by apply order_by_key_sorted.
  rewrite (nodes_under_perm _ _ w
             (order_by_key_perm (yago_cpnd (with_parts findall self)))).
  unfold idx_pending. by rewrite Hi, Hib.
Qed.

(** X9: on an object whose stores and batches are empty and whose node
    ids are texts that [yago_cpnd] keeps as texts, [create_idx_from_sql]
    leaves a Part Index that answers a word with exactly the nodes having
    a label in which [word_re] finds the word (all of them such texts),
    and with [None] for a word of no label; this holds for every flush
    interval. *)
Theorem part_index_exact (self : YagoDict) :
  kvs_batch self = [] → idx_batch self = [] → idx self = ∅ →
  yago_cpnd self = [] →
  (∀ label n, (label, n) ∈ yago_node self → stored_as_text n = true) →
  let built := create_idx_from_sql findall flush_every write_clears self in
  (∀ w label n, (label, n) ∈ yago_node self → w ∈ findall label →
     ∃ s, Resolver.idx_map_part built w = Some s ∧
          (∀ m, m ∈ s ↔
                ∃ label', (label', m) ∈ yago_node self ∧ w ∈ findall label') ∧
          (∀ m, m ∈ s → stored_as_text m = true)) ∧
  (∀ w, (∀ label n, (label, n) ∈ yago_node self → w ∉ findall label) →
        Resolver.idx_map_part built w = None).
Proof.
  intros Hkb Hib Hidx Hcpnd Htext built.
  assert (Hmem : ∀ w m, m ∈ nodes_under (yago_cpnd (with_parts findall self)) w
                        ↔ ∃ label, (label, m) ∈ yago_node self ∧
                                   w ∈ findall label).
  { intros w m. rewrite elem_of_nodes_under, with_parts_cpnd, Hcpnd.
    simpl. split; [|auto]. intros [Hnil|?]; [|done].
    by apply elem_of_nil in Hnil. }
  split.
  - intros w label n Hrow Hw. unfold built.
    rewrite part_lookup_after_build by done.
    rewrite decide_False.
    + eexists. split; [done|]. split; [apply Hmem|].
      intros m (label' & Hrow' & _)%Hmem. by apply (Htext label').
    + intros Hempty.
      apply (not_elem_of_empty (C:=gset string) n). rewrite <-Hempty.
      apply Hmem. eauto.
  - intros w Hnone. unfold built. rewrite part_lookup_after_build by done.
    rewrite decide_True.
    + unfold idx_pending. by rewrite Hidx, Hib.
    + apply set_eq. intros m. rewrite Hmem.
      split; [|by intros ?%not_elem_of_empty].
      intros (label & Hrow & Hw). by destruct (Hnone label m Hrow).
Qed.

(** X10: with node ids that [yago_cpnd] keeps as texts, in [yago_node]
    and in the rows [yago_cpnd] already has, the table holds only such
    nodes after [create_idx_from_sql] and keeps its rows distinct, and a
    second run of [create_idx_from_sql] adds no row to it. *)
Theorem part_table_unique (self : YagoDict) :
  (∀ label n, (label, n) ∈ yago_node self → stored_as_text n = true) →
  (∀ part n, (part, n) ∈ yago_cpnd self → stored_as_text n = true) →
  let built := create_idx_from_sql findall flush_every write_clears self in
  (∀ part n, (part, n) ∈ yago_cpnd built → stored_as_text n = true) ∧
  (NoDup (yago_cpnd self) → NoDup (yago_cpnd built)) ∧
  yago_cpnd (create_idx_from_sql findall flush_every write_clears built) =
  yago_cpnd built.
Proof.
  intros Hnode Hcpnd built. unfold built. split; [|split].
  - intros part n. rewrite (proj2 (create_idx_from_sql_tables self)).
    intros [Hold|(label & Hrow & _)]%with_parts_cpnd.
    + by apply (Hcpnd part).
    + by apply (Hnode label).
  - intros Hnd. rewrite (proj2 (create_idx_from_sql_tables self)).
    by apply with_parts_NoDup.
  - destruct (create_idx_from_sql_tables self) as [Hn Hc].
    rewrite (proj2 (create_idx_from_sql_tables _)).
    unfold with_parts at 1. rewrite Hn.
    apply insert_rows_present.
    intros label node part Hrow Hpart. rewrite Hc.
    apply with_parts_cpnd. right. exists label. split; [|done].
    by rewrite <-(order_by_key_perm (yago_node self)).
Qed.

(** X11: neither build reaches into the other index or into the taxonomy:
    [create_idx_from_sql] leaves the store of the Label Index and the
    tables [yago_node], [yago_taxn] and [yago_hrch] as they are, and
    [create_kvs_from_sql] leaves the store and the batch of the Part
    Index and all four tables as they are. *)
Theorem builds_frame (self : YagoDict) :
  (let built := create_idx_from_sql findall flush_every write_clears self in
   kvs built = kvs self ∧ yago_node built = yago_node self ∧
   yago_taxn built = yago_taxn self ∧ yago_hrch built = yago_hrch self) ∧
  (let built := create_kvs_from_sql flush_every write_clears self in
   idx built = idx self ∧ idx_batch built = idx_batch self ∧
   yago_node built = yago_node self ∧ yago_cpnd built = yago_cpnd self ∧
   yago_taxn built = yago_taxn self ∧ yago_hrch built = yago_hrch self).
Proof.
  split.
  - cbn zeta. unfold create_idx_from_sql. fold (with_parts findall self).
    cbn [kvs yago_node yago_taxn yago_hrch set_idx set_idx_batch].
    rewrite group_rows_groups.
    rewrite (fold_emit_preserves kvs), (fold_emit_preserves yago_node),
      (fold_emit_preserves yago_taxn), (fold_emit_preserves yago_hrch)
      by (intros; apply index_part_frame).
    destruct (with_parts_fields findall self) as (-> & -> & _).
    by destruct (with_parts_frame self) as [-> ->].
  - cbn zeta. unfold create_kvs_from_sql.
    cbn [idx idx_batch yago_node yago_cpnd yago_taxn yago_hrch
         set_kvs set_kvs_batch].
    rewrite group_rows_groups.
    by rewrite (fold_emit_preserves idx), (fold_emit_preserves idx_batch),
      (fold_emit_preserves yago_node), (fold_emit_preserves yago_cpnd),
      (fold_emit_preserves yago_taxn), (fold_emit_preserves yago_hrch)
      by (intros; apply kvs_insert_entryset_frame).
Qed.

End part_index_more.

Lemma part_index_exact_witness :
  ∃ s, Resolver.idx_map_part
         (Build.create_idx_from_sql Build.ascii_findall Build.FLUSH_EVERY
            false new_york) "york" = Some s ∧
       (∀ m, m ∈ s ↔
             ∃ label', (label', m) ∈ yago_node new_york ∧
                       "york" ∈ Build.ascii_findall label') ∧
       (∀ m, m ∈ s → Build.stored_as_text m = true).
Proof.
  assert (Htext : ∀ label n, (label, n) ∈ yago_node new_york →
                             Build.stored_as_text n = true).
  { intros label n Hrow%list_elem_of_singleton. by simplify_eq. }
  apply (proj1 (part_index_exact Build.ascii_findall Build.FLUSH_EVERY false
                  new_york eq_refl eq_refl eq_refl eq_refl Htext)
           "york" "new york" "<New_York>"); by_evaluation.
Defined.

Lemma part_table_unique_witness :
  (∀ part n,
     (part, n) ∈ yago_cpnd
       (Build.create_idx_from_sql Build.ascii_findall Build.FLUSH_EVERY
          false new_york) → Build.stored_as_text n = true) ∧
  NoDup (yago_cpnd
           (Build.create_idx_from_sql Build.ascii_findall Build.FLUSH_EVERY
              false new_york)).
Proof.
  destruct (part_table_unique Build.ascii_findall Build.FLUSH_EVERY false
              new_york) as (Htext & Hnd & _).
  - intros label n Hrow%list_elem_of_singleton. by simplify_eq.
  - intros part n Hrow. by apply elem_of_nil in Hrow.
  - split; [exact Htext|]. apply Hnd, NoDup_nil_2.
Defined.

(** * Further properties of the compound resolver *)

Section resolver_more.
Import Resolver.
Variable self : YagoDict.

(** X12: the one-hop expansion of a node set holds the class nodes of the
    set and, for each of its other nodes, the classes [yago_taxn] lists
    for it; a node that is no class and has no row contributes nothing. *)
Theorem expand_instances_rows `{SetIter} (s : gset string) (x : node) :
  x ∈ expand_instances self s ↔
  (x ∈ s ∧ is_class x = true) ∨
  ∃ i, i ∈ s ∧ is_class i = false ∧ (i, x) ∈ yago_taxn self.
Proof.
  rewrite elem_of_expand_instances. unfold expand_node. split.
  - intros (n & Hn & Hx). destruct (is_class n) eqn:Hcls.
    + apply elem_of_singleton in Hx as ->. by left.
    + right. exists n. by rewrite <-elem_of_find_class_default.
  - intros [[Hx Hcls]|(i & Hi & Hcls & Hrow)].
    + exists x. rewrite Hcls. split; [done|]. by apply elem_of_singleton.
    + exists i. rewrite Hcls. by rewrite elem_of_find_class_default.
Qed.

(** X13: the order in which a Python set hands out its elements has no
    bearing on Strategy A: [expand_instances] and [find_compound] return
    the same for any two iteration orders. *)
Theorem strategy_a_iteration_order (H1 H2 : SetIter) :
  (∀ s, expand_instances (H:=H1) self s = expand_instances (H:=H2) self s) ∧
  (∀ lemmas, find_compound (H:=H1) self lemmas
             = find_compound (H:=H2) self lemmas).
Proof.
  assert (Hexp : ∀ s, expand_instances (H:=H1) self s
                      = expand_instances (H:=H2) self s).
  { intros s. apply set_eq. intros x.
    by rewrite (elem_of_expand_instances (H:=H1)),
      (elem_of_expand_instances (H:=H2)). }
  split; [done|]. intros lemmas.
  rewrite (find_compound_unfold (H:=H1)), (find_compound_unfold (H:=H2)).
  assert (expand_instances (H:=H1) self <$> found_sets self lemmas =
          expand_instances (H:=H2) self <$> found_sets self lemmas) as ->; [|done].
  apply list_fmap_ext. intros _ s _. apply Hexp.
Qed.

Section with_order.
Context `{SetIter}.

(** X14: a lemma that the Part Index does not have leaves the answer of
    [find_compound] as it is without that lemma, wherever it stands in
    the list. *)
Theorem find_compound_ignores_missing (before after : list string)
    (w : string) :
  idx_map_part self w = None →
  find_compound self (before ++ w :: after) =
  find_compound self (before ++ after).
Proof.
  intros Hw. rewrite !find_compound_unfold. unfold found_sets.
  rewrite !omap_app. cbn [omap list_omap]. by rewrite Hw.
Qed.

(** X15: every node [find_compound] returns is a class node or a class
    that [yago_taxn] lists for some node; an instance without such a
    listing is never returned. *)
Theorem find_compound_returns_classes (lemmas : list string)
    (s : gset string) :
  find_compound self lemmas = Ok (Some s) →
  ∀ x, x ∈ s → is_class x = true ∨ ∃ i, (i, x) ∈ yago_taxn self.
Proof.
  rewrite find_compound_unfold. intros Hrun x Hx.
  destruct (found_sets self lemmas) as [|first rest]; [done|].
  rewrite fmap_cons in Hrun. injection Hrun as <-.
  pose proof (proj1 (elem_of_foldl_intersection _ _ _) Hx
                (expand_instances self first) (list_elem_of_here _ _)) as Hx'.
  clear Hx. rename Hx' into Hx.
  apply elem_of_expand_instances in Hx as (n & _ & Hx).
  unfold expand_node in Hx. destruct (is_class n) eqn:Hcls.
  - apply elem_of_singleton in Hx as ->. by left.
  - right. exists n. by apply elem_of_find_class_default.
Qed.

End with_order.

(** X16: the parts of a compound can be given in any order:
    [idx_map_compound] returns the same set, or raises alike. *)
Theorem idx_map_compound_permutation (compound compound' : list string) :
  compound ≡ₚ compound' →
  idx_map_compound self compound = idx_map_compound self compound'.
Proof.
  intros Hperm. destruct compound as [|p ps], compound' as [|q qs].
  - done.
  - by apply Permutation_nil_cons in Hperm.
  - symmetry in Hperm. by apply Permutation_nil_cons in Hperm.
  - rewrite !idx_map_compound_cons. f_equal. apply set_eq. intros x.
    rewrite !elem_of_compound_nodes.
    split; intros Hall r Hr; apply Hall; [by rewrite Hperm|by rewrite <-Hperm].
Qed.

(** X17: one more part never adds a node: the set of a compound lies
    within the set of the compound without its first part. *)
Theorem idx_map_compound_shrinks (p q : string) (ps : list string) :
  ∃ s s', idx_map_compound self (p :: q :: ps) = Ok s ∧
          idx_map_compound self (q :: ps) = Ok s' ∧
          s ⊆ s'.
Proof.
  exists (compound_nodes self (p :: q :: ps)), (compound_nodes self (q :: ps)).
  split; [apply idx_map_compound_cons|].
  split; [apply idx_map_compound_cons|].
  intros x. rewrite !elem_of_compound_nodes.
  intros Hall r Hr. apply Hall. by right.
Qed.

Lemma combinations_sublist {A : Type} (l : list A) :
  ∀ r c, c ∈ combinations l r → c `sublist_of` l.
Proof.
  induction l as [|x l IH]; intros [|r] c Hc; simpl in Hc.
  - apply list_elem_of_singleton in Hc as ->. constructor.
  - by apply elem_of_nil in Hc.
  - apply list_elem_of_singleton in Hc as ->. apply sublist_nil_l.
  - apply elem_of_app in Hc as [(c' & -> & Hc')%list_elem_of_fmap|Hc].
    + apply sublist_skip. by eapply IH.
    + apply sublist_cons. by eapply IH.
Qed.

Section with_order_b.
Context `{SetIter}.

Lemma find_compound2_some_init (lemmas : list string)
    (min_threshold init_len max_len : Z) (prefer_classes : bool) v :
  find_compound2 self lemmas min_threshold init_len max_len prefer_classes
    = Ok (Some v) →
  (1 ≤ init_len)%Z.
Proof.
  intros Hrun. destruct (decide (1 ≤ init_len)%Z) as [|Hinit]; [done|].
  exfalso. destruct (decide (max_len < init_len)%Z) as [Hmax|Hmax].
  - destruct (find_compound2_no_pass self lemmas min_threshold init_len
                max_len prefer_classes Hmax) as [Hnone _].
    rewrite Hnone in Hrun. done.
  - destruct lemmas as [|lemma lemmas]; [done|].
    rewrite find_compound2_first_pass_raises in Hrun by (done || lia).
    done.
Qed.

(** X18: the set Strategy B returns with [prefer_classes] unset is the
    Part Index intersection of a combination that keeps the order of the
    lemmas, is not empty and has a length from [init_len] to [max_len]. *)
Theorem find_compound2_from_sublist (lemmas : list string)
    (min_threshold init_len max_len : Z) (b : gset string) :
  find_compound2 self lemmas min_threshold init_len max_len false
    = Ok (Some (PySet b)) →
  ∃ comb, comb `sublist_of` lemmas ∧
          (1 ≤ init_len ≤ Z.of_nat (length comb))%Z ∧
          (Z.of_nat (length comb) ≤ max_len)%Z ∧
          idx_map_compound self comb = Ok b.
Proof.
  intros Hrun. pose proof (find_compound2_some_init _ _ _ _ _ _ Hrun) as Hinit.
  rewrite find_compound2_run in Hrun by done.
  pose proof (search_fold_inv min_threshold
                (candidate_sets self lemmas init_len max_len)) as Hinv.
  unfold search_inv in Hinv.
  destruct (foldl (consider min_threshold) (None, BEST_LEN)
              (candidate_sets self lemmas init_len max_len)).1 as [b'|];
    [|done].
  assert (b' = b) as -> by (by simplify_eq).
  destruct Hinv as (_ & _ & i & Hi & _).
  unfold candidate_sets in Hi. rewrite list_lookup_fmap in Hi.
  destruct (enumerated lemmas init_len max_len !! i) as [comb|] eqn:Hcomb;
    [|done].
  simpl in Hi. injection Hi as <-.
  apply list_elem_of_lookup_2 in Hcomb. unfold enumerated in Hcomb.
  apply list_elem_of_bind in Hcomb as (n & Hc & Hn%xrange_elem).
  pose proof (combinations_length _ _ _ Hc) as Hlen.
  exists comb. split; [by eapply combinations_sublist|].
  split; [lia|]. split; [lia|].
  destruct comb as [|p ps]; [simpl in Hlen; lia|].
  apply idx_map_compound_cons.
Qed.

(** X19: [find_compound2] answers [None] for an empty list of lemmas and
    for a range of lengths that is empty, whatever the other arguments;
    a negative [init_len] with a range that is not empty makes it raise
    [ValueError]. *)
Theorem find_compound2_degenerate (lemmas : list string)
    (min_threshold init_len max_len : Z) (prefer_classes : bool) :
  find_compound2 self [] min_threshold init_len max_len prefer_classes
    = Ok None ∧
  ((Z.of_nat (length lemmas) < init_len ∨ max_len < init_len)%Z →
   find_compound2 self lemmas min_threshold init_len max_len prefer_classes
     = Ok None) ∧
  (lemmas ≠ [] → (init_len < 0)%Z → (init_len ≤ max_len)%Z →
   find_compound2 self lemmas min_threshold init_len max_len prefer_classes
     = Raise ValueError).
Proof.
  split; [done|]. split.
  - intros Hempty. unfold find_compound2, xrange.
    rewrite seqZ_nil by lia. by case_bool_decide.
  - intros Hne Hneg Hmax.
    rewrite find_compound2_first_pass_raises by (done || lia).
    by rewrite bool_decide_eq_true_2.
Qed.

(** X20: with [prefer_classes] set, what [find_compound2] returns is a
    list that is not empty and never mixes the two kinds of node: all its
    nodes are classes, or it is one node that is no class. *)
Theorem find_compound2_prefer_unmixed (lemmas : list string)
    (min_threshold init_len max_len : Z) (v : pyval) :
  find_compound2 self lemmas min_threshold init_len max_len true
    = Ok (Some v) →
  ∃ l, v = PyList l ∧ l ≠ [] ∧
       ((∀ x, x ∈ l → is_class x = true) ∨
        ∃ m, l = [m] ∧ is_class m = false).
Proof.
  intros Hrun. pose proof (find_compound2_some_init _ _ _ _ _ _ Hrun) as Hinit.
  rewrite find_compound2_run in Hrun by done.
  destruct (foldl (consider min_threshold) (None, BEST_LEN)
              (candidate_sets self lemmas init_len max_len)).1 as [b|];
    [|done].
  destruct (decide (b = ∅)) as [->|Hne].
  { unfold prefer in Hrun.
    assert (set_iter (∅ : gset string) = []) as Hnil.
    { apply Permutation_nil_r. rewrite (set_iter_perm ∅).
      by rewrite elements_empty. }
    rewrite Hnil in Hrun. done. }
  destruct (prefer_nonempty b Hne) as (l & Hl & Hsub & Hlen & Hcls & Hins).
  rewrite Hl in Hrun. simplify_eq/=. exists l. split; [done|].
  split; [by destruct l; simpl in *; [lia|]|].
  destruct (existsb is_class (set_iter b)) eqn:Hex.
  - left. apply existsb_is_class in Hex. rewrite (Hcls Hex).
    intros x [Hx _]%list_elem_of_filter. by apply Is_true_true.
  - right.
    assert (Hall : ∀ n, n ∈ b → is_class n = false).
    { intros n Hn. destruct (is_class n) eqn:Hc; [|done].
      assert (existsb is_class (set_iter b) = true) as Htrue
        by (apply existsb_is_class; eauto).
      congruence. }
    destruct (Hins Hall) as (m & -> & Hm & _). exists m. split; [done|].
    by apply Hall.
Qed.

End with_order_b.

End resolver_more.

Lemma find_compound_ignores_missing_witness :
  Resolver.find_compound (H:=elements_iter) dog_house
    (["dog"] ++ "zebra" :: ["house"]) =
  Resolver.find_compound (H:=elements_iter) dog_house (["dog"] ++ ["house"]).
Proof.
  apply (find_compound_ignores_missing dog_house (H:=elements_iter)).
  by_evaluation.
Defined.

Lemma find_compound_returns_classes_witness :
  Resolver.is_class "<wordnet_house_1>" = true ∨
  ∃ i, (i, "<wordnet_house_1>") ∈ yago_taxn dog_house.
Proof.
  apply (find_compound_returns_classes dog_house (H:=elements_iter)
           ["house"] {[ "<wordnet_house_1>" ]}).
  - by_evaluation.
  - by apply elem_of_singleton.
Defined.

Lemma idx_map_compound_permutation_witness :
  Resolver.idx_map_compound dog_house ["dog"; "house"] =
  Resolver.idx_map_compound dog_house ["house"; "dog"].
Proof.
  apply (idx_map_compound_permutation dog_house). apply perm_swap.
Defined.

Lemma find_compound2_from_sublist_witness :
  ∃ comb, comb `sublist_of` ["alpha"; "beta"] ∧
          (1 ≤ 1 ≤ Z.of_nat (length comb))%Z ∧
          (Z.of_nat (length comb) ≤ 3)%Z ∧
          Resolver.idx_map_compound alpha_beta comb
            = Ok {[ "<wordnet_beta_1>" ]}.
Proof.
  apply (find_compound2_from_sublist alpha_beta (H:=elements_iter)
           ["alpha"; "beta"] 1 1 3).
  by_evaluation.
Defined.

Lemma find_compound2_degenerate_witness :
  Resolver.find_compound2 (H:=elements_iter) dog_house ["dog"; "house"]
    1 3 3 true = Ok None ∧
  Resolver.find_compound2 (H:=elements_iter) dog_house ["dog"; "house"]
    1 (-2) 3 true = Raise ValueError.
Proof.
  destruct (find_compound2_degenerate dog_house (H:=elements_iter)
              ["dog"; "house"] 1 3 3 true) as (_ & Hnone & _).
  destruct (find_compound2_degenerate dog_house (H:=elements_iter)
              ["dog"; "house"] 1 (-2) 3 true) as (_ & _ & Hraise).
  split; [apply Hnone; left; simpl; lia|apply Hraise; [done|lia|lia]].
Defined.

Lemma find_compound2_prefer_unmixed_witness :
  ∃ l, PyList ["<wordnet_story_1>"] = PyList l ∧ l ≠ [] ∧
       ((∀ x, x ∈ l → Resolver.is_class x = true) ∨
        ∃ m, l = [m] ∧ Resolver.is_class m = false).
Proof.
  apply (find_compound2_prefer_unmixed class_and_instance (H:=elements_iter)
           ["story"] 1 1 3).
  by_evaluation.
Defined.

(** * Properties of the triple rows and of the auxiliary tables *)

Section strings.
Import Resolver.

Lemma split_nonempty sep s : split sep s ≠ [].
Proof.
  destruct s as [|c s]; simpl; [done|].
  destruct (Ascii.eqb c sep); [done|]. by destruct (split sep s).
Qed.

(** [split] cuts at every separator. *)
Lemma split_app sep (a b : string) :
  split sep (a +:+ String sep b) = split sep a ++ split sep b.
Proof.
  induction a as [|c a IH]; simpl.
  - by rewrite Ascii.eqb_refl.
  - rewrite IH. destruct (Ascii.eqb c sep); [done|].
    pose proof (split_nonempty sep a) as Hne.
    by destruct (split sep a).
Qed.

Lemma split_free sep (s : string) : occurs sep s = false → split sep s = [s].
Proof.
  induction s as [|c s IH]; simpl; [done|].
  intros [Hc Hs]%orb_false_elim. rewrite Hc, IH by done. done.
Qed.

Lemma occurs_app sep (a b : string) :
  occurs sep (a +:+ String sep b) = true.
Proof.
  induction a as [|c a IH]; simpl.
  - by rewrite Ascii.eqb_refl.
  - by rewrite IH, orb_true_r.
Qed.

(** Joining the pieces on the empty string gives the string without its
    separators. *)
Lemma concat_split sep (s : string) :
  String.concat "" (split sep s) = without sep s.
Proof.
  induction s as [|c s IH]; simpl; [done|].
  destruct (Ascii.eqb c sep).
  - rewrite <-IH. pose proof (split_nonempty sep s) as Hne.
    by destruct (split sep s).
  - rewrite <-IH. pose proof (split_nonempty sep s) as Hne.
    destruct (split sep s) as [|seg [|seg' segs]]; simpl; done.
Qed.

Lemma without_free sep (s : string) : occurs sep s = false → without sep s = s.
Proof.
  induction s as [|c s IH]; simpl; [done|].
  intros [Hc Hs]%orb_false_elim. by rewrite Hc, IH.
Qed.

End strings.

Section triples.
Import Triples.

(** X21: [parse_triple_row] raises [IndexError] on an empty row; a row of
    one field gives that field both as relation name and as frequency,
    with no argument; on a longer row the first field is the relation
    name, the last the frequency, and the fields between are the
    arguments, in order. *)
Theorem parse_triple_row_fields :
  parse_triple_row [] = Raise IndexError ∧
  (∀ x, parse_triple_row [x] = Ok (x, [], x)) ∧
  (∀ rel_name middle freq,
     parse_triple_row (rel_name :: middle ++ [freq]) =
     Ok (rel_name, parse_arg <$> middle, freq)).
Proof.
  split; [done|]. split; [done|].
  intros rel_name middle freq. unfold parse_triple_row.
  change (rel_name :: middle ++ [freq]) with ((rel_name :: middle) ++ [freq]).
  rewrite last_snoc. cbn [default from_option id].
  rewrite length_app.
  replace (length (rel_name :: middle) + length [freq] - 1)%nat
    with (length (rel_name :: middle)) by (simpl; lia).
  by rewrite take_app_length.
Qed.

(** X22: an argument [lemmas-pos] whose tag has no hyphen parses to the
    pair of the lemmas with their hyphens removed and the tag, unless it
    is the marker ["<->"]; an argument without hyphen other than
    ["<NONE>"] parses to empty lemmas with the whole text as tag. *)
Theorem parse_arg_pair (lemmas pos : string) :
  occurs "-" pos = false →
  (lemmas +:+ String "-" pos ≠ "<->" →
   parse_arg (lemmas +:+ String "-" pos) = ARG (without "-" lemmas) pos) ∧
  (pos ≠ "<NONE>" → parse_arg pos = ARG "" pos).
Proof.
  intros Hpos. unfold parse_arg. split.
  - intros Hmarker.
    assert (String.eqb (lemmas +:+ String "-" pos) "<NONE>" = false) as ->.
    { apply String.eqb_neq. intros Heq.
      pose proof (occurs_app "-" lemmas pos) as Hocc.
      rewrite Heq in Hocc. done. }
    assert (String.eqb (lemmas +:+ String "-" pos) "<->" = false) as ->
      by (by apply String.eqb_neq).
    rewrite split_app, (split_free _ pos Hpos).
    rewrite last_snoc, length_app. cbn [length default from_option id].
    replace (length (Resolver.split "-" lemmas) + 1 - 1)%nat
      with (length (Resolver.split "-" lemmas)) by lia.
    by rewrite take_app_length, concat_split.
  - intros Hnone.
    assert (String.eqb pos "<NONE>" = false) as ->
      by (by apply String.eqb_neq).
    assert (String.eqb pos "<->" = false) as ->.
    { apply String.eqb_neq. intros ->. done. }
    by rewrite (split_free _ pos Hpos).
Qed.

End triples.

Section concepts_more.
Import Concepts.
Variable lower : string → string.

Lemma find_concept_elem aux form rel (c : string) :
  (∃ s, find_concept aux form rel = Some s ∧ c ∈ s) ↔
  ∃ r pos, (r, c, form, pos) ∈ conceptnet aux ∧
           match rel with Some rel => r = rel | None => True end.
Proof.
  unfold find_concept. destruct rel as [rel|].
  - set (hits := (λ row : Z * string * string * string, row.1.1.2) <$>
                 filter (λ row : Z * string * string * string,
                           row.1.2 = form ∧ row.1.1.1 = rel)
                        (conceptnet aux)).
    assert (Hhits : c ∈ hits ↔
              ∃ r pos, (r, c, form, pos) ∈ conceptnet aux ∧ r = rel).
    { unfold hits. rewrite list_elem_of_fmap. split.
      - intros ([[[r c'] f] pos] & -> & [[Hf Hr] Hin]%list_elem_of_filter).
        simpl in *. subst. eauto.
      - intros (r & pos & Hin & ->). exists (rel, c, form, pos).
        split; [done|]. by apply list_elem_of_filter. }
    rewrite <-Hhits. case_bool_decide as Hlen.
    + split; [intros (s & [= <-] & Hc); by apply elem_of_list_to_set in Hc|].
      intros Hc. eexists. split; [done|]. by apply elem_of_list_to_set.
    + split; [by intros (s & [=] & _)|].
      intros Hc. destruct hits; [by apply elem_of_nil in Hc|simpl in Hlen; lia].
  - set (hits := (λ row : Z * string * string * string, row.1.1.2) <$>
                 filter (λ row : Z * string * string * string,
                           row.1.2 = form) (conceptnet aux)).
    assert (Hhits : c ∈ hits ↔
              ∃ r pos, (r, c, form, pos) ∈ conceptnet aux ∧ True).
    { unfold hits. rewrite list_elem_of_fmap. split.
      - intros ([[[r c'] f] pos] & -> & [Hf Hin]%list_elem_of_filter).
        simpl in *. subst. eauto.
      - intros (r & pos & Hin & _). exists (r, c, form, pos).
        split; [done|]. by apply list_elem_of_filter. }
    rewrite <-Hhits. case_bool_decide as Hlen.
    + split; [intros (s & [= <-] & Hc); by apply elem_of_list_to_set in Hc|].
      intros Hc. eexists. split; [done|]. by apply elem_of_list_to_set.
    + split; [by intros (s & [=] & _)|].
      intros Hc. destruct hits; [by apply elem_of_nil in Hc|simpl in Hlen; lia].
Qed.

(** X23: a concept entered under one of the three known relation names is
    found by [find_concept] under the lowered form, with and without the
    relation: the concept found is the lowered text before the first
    slash. Entering it once more returns the table unchanged. *)
Theorem concept_insert_lookup (aux : AuxTables) (rel_name form : string)
    (rel : Z) (concept tail : string) :
  (rel_name, rel) ∈ [("DerivedFrom", DerivedFrom);
                     ("ConceptuallyRelatedTo", ConceptuallyRelatedTo);
                     ("Synonym", Synonym)] →
  occurs "/" concept = false →
  ∃ aux',
    sql_insert_concept lower aux rel_name form (concept +:+ String "/" tail)
      = Returns aux' ∧
    (∃ s, find_concept aux' (lower form) (Some rel) = Some s ∧
          lower concept ∈ s) ∧
    (∃ s, find_concept aux' (lower form) None = Some s ∧ lower concept ∈ s) ∧
    sql_insert_concept lower aux' rel_name form (concept +:+ String "/" tail)
      = Returns aux'.
Proof.
  intros Hrel Hfree. unfold sql_insert_concept.
  rewrite split_app, (split_free _ concept Hfree).
  cbn [app head default from_option id].
  set (pos := if bool_decide (1 < length ([concept] ++ Resolver.split "/" tail))%nat
              then default EmptyString
                     (last (concept :: Resolver.split "/" tail))
              else "?").
  change (if bool_decide (1 < length (concept :: Resolver.split "/" tail))%nat
          then default EmptyString (last (concept :: Resolver.split "/" tail))
          else "?") with pos.
  assert (Hcase : ∀ t : AuxTables,
    (if String.eqb rel_name "DerivedFrom"
     then Returns (if bool_decide
                        ((DerivedFrom, lower concept, lower form, pos)
                         ∈ conceptnet t) then t
                   else mkAuxTables
                          (conceptnet t ++
                           [(DerivedFrom, lower concept, lower form, pos)])
                          (names t))
     else if String.eqb rel_name "ConceptuallyRelatedTo"
     then Returns (if bool_decide
                        ((ConceptuallyRelatedTo, lower concept, lower form, pos)
                         ∈ conceptnet t) then t
                   else mkAuxTables
                          (conceptnet t ++
                           [(ConceptuallyRelatedTo, lower concept, lower form,
                             pos)])
                          (names t))
     else if String.eqb rel_name "Synonym"
     then Returns (if bool_decide
                        ((Synonym, lower concept, lower form, pos)
                         ∈ conceptnet t) then t
                   else mkAuxTables
                          (conceptnet t ++
                           [(Synonym, lower concept, lower form, pos)])
                          (names t))
     else RaisesAttributeError) =
    Returns (if bool_decide ((rel, lower concept, lower form, pos)
                             ∈ conceptnet t) then t
             else mkAuxTables
                    (conceptnet t ++ [(rel, lower concept, lower form, pos)])
                    (names t))).
  { intros t.
    apply elem_of_cons in Hrel as [[= -> ->]|Hrel]; [done|].
    apply elem_of_cons in Hrel as [[= -> ->]|Hrel]; [done|].
    apply list_elem_of_singleton in Hrel as [= -> ->]. done. }
  rewrite Hcase.
  set (aux' := if bool_decide ((rel, lower concept, lower form, pos)
                               ∈ conceptnet aux) then aux
               else mkAuxTables
                      (conceptnet aux ++
                       [(rel, lower concept, lower form, pos)]) (names aux)).
  assert (Hin : (rel, lower concept, lower form, pos) ∈ conceptnet aux').
  { unfold aux'. case_bool_decide; [done|]. cbn [conceptnet].
    apply elem_of_app. right. by left. }
  exists aux'. split; [done|]. split; [|split].
  - apply find_concept_elem. eauto.
  - apply find_concept_elem. eauto.
  - rewrite Hcase. by rewrite bool_decide_eq_true_2.
Qed.

End concepts_more.

Section names_more.
Import Concepts.

(** X24: after [sql_insert_name], [is_name] holds of the name entered and
    answers for every other name as before; the table never holds a name
    twice. *)
Theorem name_insert_lookup (aux : AuxTables) (name : string) :
  is_name (sql_insert_name aux name) name = true ∧
  (∀ other, other ≠ name →
            is_name (sql_insert_name aux name) other = is_name aux other) ∧
  (NoDup (names aux) → NoDup (names (sql_insert_name aux name))).
Proof.
  assert (His : ∀ t n, is_name t n = bool_decide (n ∈ names t)).
  { intros t n. unfold is_name. apply bool_decide_ext.
    destruct (filter (λ m, m = n) (names t)) as [|m hits] eqn:Hf.
    - split; [simpl; lia|]. intros Hin.
      assert (n ∈ filter (λ m, m = n) (names t)) as Hn
        by (by apply list_elem_of_filter).
      rewrite Hf in Hn. by apply elem_of_nil in Hn.
    - split; [|simpl; lia]. intros _.
      assert (m ∈ filter (λ m, m = n) (names t)) as Hm
        by (rewrite Hf; by left).
      by apply list_elem_of_filter in Hm as [-> ?]. }
  unfold sql_insert_name. case_bool_decide as Hin.
  - split; [by rewrite His, bool_decide_eq_true_2|]. done.
  - cbn [names]. split; [|split].
    + rewrite His. cbn [names]. apply bool_decide_eq_true_2.
      apply elem_of_app. right. by left.
    + intros other Hne. rewrite !His. cbn [names]. apply bool_decide_ext.
      rewrite elem_of_app, list_elem_of_singleton. tauto.
    + intros Hnd. apply NoDup_app. split; [done|]. split.
      * by intros r Hr ->%list_elem_of_singleton.
      * apply NoDup_singleton.
Qed.

End names_more.

Lemma parse_arg_pair_witness :
  Triples.parse_arg "new&&york-NN" = ARG "new&&york" "NN" ∧
  Triples.parse_arg "well-known-JJ" = ARG "wellknown" "JJ" ∧
  Triples.parse_arg "york" = ARG "" "york".
Proof.
  split; [|split].
  - apply (parse_arg_pair "new&&york" "NN"); [done|by_evaluation].
  - apply (parse_arg_pair "well-known" "JJ"); [done|by_evaluation].
  - apply (parse_arg_pair "" "york"); [done|by_evaluation].
Defined.

Lemma concept_insert_lookup_witness :
  ∃ aux',
    Concepts.sql_insert_concept Concepts.ascii_lower empty_aux "Synonym"
      "Cars" ("Automobile" +:+ String "/" "n") = Returns aux' ∧
    (∃ s, Concepts.find_concept aux' (Concepts.ascii_lower "Cars")
            (Some Concepts.Synonym) = Some s ∧
          Concepts.ascii_lower "Automobile" ∈ s) ∧
    (∃ s, Concepts.find_concept aux' (Concepts.ascii_lower "Cars") None
            = Some s ∧
          Concepts.ascii_lower "Automobile" ∈ s) ∧
    Concepts.sql_insert_concept Concepts.ascii_lower aux' "Synonym"
      "Cars" ("Automobile" +:+ String "/" "n") = Returns aux'.
Proof.
  apply (concept_insert_lookup Concepts.ascii_lower empty_aux "Synonym"
           "Cars" Concepts.Synonym "Automobile" "n"); [|done].
  right. right. by left.
Defined.

Lemma name_insert_lookup_witness :
  Concepts.is_name (Concepts.sql_insert_name empty_aux "vladimir") "taras"
    = Concepts.is_name empty_aux "taras" ∧
  NoDup (names (Concepts.sql_insert_name empty_aux "vladimir")).
Proof.
  destruct (name_insert_lookup empty_aux "vladimir") as (_ & Hother & Hnd).
  split; [by apply Hother|]. apply Hnd. apply NoDup_nil_2.
Defined.

Section dump_rows.
Import YagoEntry.
Variable utf8 : string → bool.

(** X25: [extract_transition] decodes the line first, and a line the
    codec refuses raises [UnicodeDecodeError] whatever its fields are; of
    a line that decodes it returns the second and the fourth
    tab-separated field, the fourth whole up to the next tab or the end of
    the line, and a line of fewer than four fields raises [IndexError]. *)
Theorem extract_transition_fields (f0 f1 f2 f3 : string) :
  occurs TAB f0 = false → occurs TAB f1 = false →
  occurs TAB f2 = false → occurs TAB f3 = false →
  (∀ line, utf8 line = false →
           extract_transition utf8 line = RaisesUnicodeDecodeError) ∧
  (∀ rest line,
     line = f0 +:+ String TAB (f1 +:+ String TAB (f2 +:+ String TAB
              (f3 +:+ String TAB rest))) →
     utf8 line = true →
     extract_transition utf8 line = Transition f1 f3) ∧
  (∀ line,
     line = f0 +:+ String TAB (f1 +:+ String TAB (f2 +:+ String TAB f3)) →
     utf8 line = true →
     extract_transition utf8 line = Transition f1 f3) ∧
  (∀ line,
     line = f0 +:+ String TAB (f1 +:+ String TAB f2) ∨
     line = f0 +:+ String TAB f1 ∨ line = f0 →
     utf8 line = true →
     extract_transition utf8 line = RaisesIndexError).
Proof.
  intros H0 H1 H2 H3. unfold extract_transition, decode.
  split; [|split; [|split]].
  - by intros line ->.
  - intros rest line -> ->.
    by rewrite !split_app, (split_free _ f0 H0), (split_free _ f1 H1),
      (split_free _ f2 H2), (split_free _ f3 H3).
  - intros line -> ->.
    by rewrite !split_app, (split_free _ f0 H0), (split_free _ f1 H1),
      (split_free _ f2 H2), (split_free _ f3 H3).
  - intros line [-> | [-> | ->]] ->;
      rewrite ?split_app, ?(split_free _ f0 H0), ?(split_free _ f1 H1),
        ?(split_free _ f2 H2); done.
Qed.

End dump_rows.

(** A line of ASCII bytes with four fields, and a line of one byte that
    no UTF-8 text starts with, under a codec that refuses it. *)
Lemma extract_transition_fields_witness :
  YagoEntry.extract_transition YagoEntry.ascii_bytes
    ("<id_1>" +:+ String YagoEntry.TAB ("<Tim_Story>" +:+ String YagoEntry.TAB
       ("rdf:type" +:+ String YagoEntry.TAB "<wordnet_director_1>")))
  = YagoEntry.Transition "<Tim_Story>" "<wordnet_director_1>" ∧
  YagoEntry.extract_transition YagoEntry.ascii_bytes
    (String (Ascii.ascii_of_nat 255) EmptyString)
  = YagoEntry.RaisesUnicodeDecodeError.
Proof.
  destruct (extract_transition_fields YagoEntry.ascii_bytes
              "<id_1>" "<Tim_Story>" "rdf:type" "<wordnet_director_1>")
    as (Hbad & _ & Hfour & _); [reflexivity..|].
  split.
  - by apply Hfour.
  - by apply Hbad.
Defined.
